(** * The LRU cache engine of the [store] package

    A shallow embedding of [store/lru.go] and [store/store.go]: the
    recency list, the key index, the expiration index and the byte
    accounting of [lruCache], with the operations of the [Store] contract
    and the introspection helpers, followed by the properties the
    specification states about them.

    Every method runs under the mutex of the cache, so a call is one
    step on the cache value.  What a call reads from outside is passed
    to it: the instants [time.Now()] returns, and the order a [range]
    over a map takes.  A goroutine a call starts is returned with its
    result.  The ticker appears as [cleanupTick], one firing of it;
    [Close] only stops the ticker and is left out. *)

From stdpp Require Import gmap strings list fin_maps.
From Stdlib Require Import ZArith Lia.

Local Open Scope Z_scope.

(** ** Outcomes of a call

    A Go call either returns, panics (a nil pointer dereference), or
    keeps looping.  Loops are run with fuel; [OutOfFuel] is the outcome
    of a loop that was still running when the fuel ran out. *)

Inductive result (A : Type) : Type :=
  | Ok (a : A)
  | Panic
  | OutOfFuel.

Arguments Ok {A} a.
Arguments Panic {A}.
Arguments OutOfFuel {A}.

Global Instance result_ret : MRet result := λ A a, Ok a.

Global Instance result_bind : MBind result := λ A B f m,
  match m with
  | Ok a => f a
  | Panic => Panic
  | OutOfFuel => OutOfFuel
  end.

(** ** Machine integers

    [int] and [int64] are both 64-bit two's complement on the platforms
    the module targets; [wrap64] is the value an arithmetic result takes
    after wrap-around. *)

Definition wrap64 (z : Z) : Z := (z + 2 ^ 63) mod 2 ^ 64 - 2 ^ 63.

Definition in_int64 (z : Z) : Prop := - 2 ^ 63 <= z < 2 ^ 63.

(** [time.Time] is an instant in nanoseconds, [time.Duration] a number
    of nanoseconds. *)

Definition Millisecond : Z := 1000000.
Definition Minute : Z := 60000000000.

(** ** store.go *)

(** [Value] is an interface with the single method [Len() int].  A
    [Value] here is the state of the object behind the interface: an
    opaque payload together with the size [Len()] reports in that state
    ([Value_Len], as [Len] below is the method of the cache).  The cache
    stores the object it is given, not a copy, and calls [Len()] again
    on update and on removal; an object changed by its owner while it is
    stored is the step [caller_mutates] below.  A nil [Value] is
    [None]. *)

Record Value : Type := mkValue { payload : string; Value_Len : Z }.

Global Instance Value_eq_dec : EqDecision Value.
Proof. solve_decision. Defined.

(** [OnEvicted] is a function value; the embedding records whether it is
    set ([true]) or nil ([false]) and logs its invocations in the cache
    (field [evicted] below). *)

Record Options : Type := mkOptions {
  MaxBytes : Z;
  BucketCnt : Z;
  CapPerBucket : Z;
  Level2Cap : Z;
  CleanupInterval : Z;
  OnEvicted : bool
}.

Definition NewOptions : Options :=
  {| MaxBytes := 8 * 1024;
     BucketCnt := 16;
     CapPerBucket := 512;
     Level2Cap := 256;
     CleanupInterval := Minute;
     OnEvicted := false |}.

(** [CacheType] is a string; the two tags: *)

Definition LRU : string := "LRU".
Definition LRU2 : string := "LRU2".

(** ** lru.go: data *)

Record lruEntry : Type := mkEntry { key : string; value : Value }.

Global Instance lruEntry_eq_dec : EqDecision lruEntry.
Proof. solve_decision. Defined.

(** A [*list.Element] is an address (a [nat]); [elements] holds the
    [lruEntry] each allocated element points to, so that the list and
    the key index share one entry, as they do in Go.  [lru] is the list
    read from [Front()] to [Back()].  [next_elem] is the next unused
    address and [evicted] the calls made to [onEvicted], oldest first. *)

Record lruCache : Type := mkCache {
  lru : list nat;
  elements : gmap nat lruEntry;
  items : gmap string nat;
  expires : gmap string Z;
  maxBytes : Z;
  usedBytes : Z;
  onEvicted : bool;
  cleanupInterval : Z;
  next_elem : nat;
  evicted : list (string * Value)
}.

Definition set_lru (l : list nat) (c : lruCache) : lruCache :=
  mkCache l (elements c) (items c) (expires c) (maxBytes c) (usedBytes c)
          (onEvicted c) (cleanupInterval c) (next_elem c) (evicted c).

Definition set_expires (x : gmap string Z) (c : lruCache) : lruCache :=
  mkCache (lru c) (elements c) (items c) x (maxBytes c) (usedBytes c)
          (onEvicted c) (cleanupInterval c) (next_elem c) (evicted c).

Definition set_maxBytes (m : Z) (c : lruCache) : lruCache :=
  mkCache (lru c) (elements c) (items c) (expires c) m (usedBytes c)
          (onEvicted c) (cleanupInterval c) (next_elem c) (evicted c).

(** ** container/list, as far as the cache uses it *)

Definition list_Remove (e : nat) (l : list nat) : list nat :=
  filter (λ x, x ≠ e) l.

Definition list_MoveToFront (e : nat) (l : list nat) : list nat :=
  if decide (e ∈ l) then e :: list_Remove e l else l.

Definition list_MoveToBack (e : nat) (l : list nat) : list nat :=
  if decide (e ∈ l) then list_Remove e l ++ [e] else l.

Definition list_PushBack (e : nat) (l : list nat) : list nat := l ++ [e].

Definition list_Front (l : list nat) : option nat := head l.

(** ** lru.go: operations *)

Definition newLRUCache (opts : Options) : lruCache :=
  let cleanup :=
    if CleanupInterval opts <=? 0 then Minute else CleanupInterval opts in
  {| lru := [];
     elements := ∅;
     items := ∅;
     expires := ∅;
     maxBytes := MaxBytes opts;
     usedBytes := 0;
     onEvicted := OnEvicted opts;
     cleanupInterval := cleanup;
     next_elem := 0%nat;
     evicted := [] |}.

(** What an entry is accounted for: [len(entry.key) + entry.value.Len()]. *)

Definition entry_size (en : lruEntry) : Z :=
  Z.of_nat (String.length (key en)) + Value_Len (value en).

(** [removeElement]: [elem] may be nil ([None]), in which case reading
    [elem.Value] panics. *)

Definition removeElement (elem : option nat) (c : lruCache) : result lruCache :=
  match elem with
  | None => Panic
  | Some e =>
      match elements c !! e with
      | None => Panic
      | Some entry =>
          Ok {| lru := list_Remove e (lru c);
                elements := elements c;
                items := delete (key entry) (items c);
                expires := delete (key entry) (expires c);
                maxBytes := maxBytes c;
                usedBytes := wrap64 (usedBytes c - wrap64 (entry_size entry));
                onEvicted := onEvicted c;
                cleanupInterval := cleanupInterval c;
                next_elem := next_elem c;
                evicted :=
                  if onEvicted c
                  then evicted c ++ [(key entry, value entry)]
                  else evicted c |}
      end
  end.

Definition Delete (k : string) (c : lruCache) : result (bool * lruCache) :=
  match items c !! k with
  | Some e => c' ← removeElement (Some e) c; Ok (true, c')
  | None => Ok (false, c)
  end.

Definition Len (c : lruCache) : Z := Z.of_nat (length (lru c)).

Definition UsedBytes (c : lruCache) : Z := usedBytes c.

Definition GetExpiration (k : string) (c : lruCache) : option Z * bool :=
  match expires c !! k with
  | Some expire => (Some expire, true)
  | None => (None, false)
  end.

Definition UpdateExpiration (k : string) (expiration now : Z) (c : lruCache)
  : bool * lruCache :=
  match items c !! k with
  | None => (false, c)
  | Some _ =>
      if 0 <? expiration
      then (true, set_expires (<[k := now + expiration]> (expires c)) c)
      else (true, set_expires (delete k (expires c)) c)
  end.

(** The expiry a write leaves for [k]: [now + expiration] for a positive
    duration, none otherwise.  [SetWithExpiration] starts with this
    block. *)

Definition expires_set (k : string) (expiration now : Z) (c : lruCache)
  : lruCache :=
  if 0 <? expiration
  then set_expires (<[k := now + expiration]> (expires c)) c
  else set_expires (delete k (expires c)) c.

(** A goroutine started by a call and not yet run. *)

Inductive goroutine : Type :=
  | GoDelete (k : string).

(** [Get] holds the read lock for the lookup and the expiry check and
    takes the write lock afterwards to reposition the element; the
    embedding runs the two critical sections back to back.  On an
    expired key nothing is removed by the call itself: [go c.Delete(key)]
    is returned as a goroutine still to run. *)

Definition Get (k : string) (now : Z) (c : lruCache)
  : result (option Value * bool * list goroutine * lruCache) :=
  match items c !! k with
  | None => Ok (None, false, [], c)
  | Some elem =>
      let isExpired :=
        match expires c !! k with
        | Some expire => now >? expire
        | None => false
        end in
      if isExpired then Ok (None, false, [GoDelete k], c)
      else
        match elements c !! elem with
        | None => Panic
        | Some entry =>
            let c' :=
              match items c !! k with
              | Some _ => set_lru (list_MoveToFront elem (lru c)) c
              | None => c
              end in
            Ok (Some (value entry), true, [], c')
        end
  end.

Definition GetWithExpiration (k : string) (now : Z) (c : lruCache)
  : result (option Value * Z * bool * lruCache) :=
  match items c !! k with
  | None => Ok (None, 0, false, c)
  | Some elem =>
      match expires c !! k with
      | Some expire =>
          if now >? expire then Ok (None, 0, false, c)
          else
            let remaining := expire - now in
            let c' := set_lru (list_MoveToBack elem (lru c)) c in
            match elements c' !! elem with
            | None => Panic
            | Some entry => Ok (Some (value entry), remaining, true, c')
            end
      | None =>
          let c' := set_lru (list_MoveToBack elem (lru c)) c in
          match elements c' !! elem with
          | None => Panic
          | Some entry => Ok (Some (value entry), 0, true, c')
          end
      end
  end.

Definition run_goroutine (g : goroutine) (c : lruCache) : result lruCache :=
  match g with
  | GoDelete k => r ← Delete k c; Ok r.2
  end.

(** The capacity pass of [evict]: the [for] loop is unrolled [fuel]
    times.  When [Front()] is nil the body does nothing and the loop
    goes round again. *)

Fixpoint capacity_loop (fuel : nat) (c : lruCache) : result lruCache :=
  if (0 <? maxBytes c) && (maxBytes c <? usedBytes c) then
    match fuel with
    | O => OutOfFuel
    | S fuel' =>
        match list_Front (lru c) with
        | Some e => c' ← removeElement (Some e) c; capacity_loop fuel' c'
        | None => capacity_loop fuel' c
        end
    end
  else Ok c.

(** The expiration pass of [evict] over the keys [ks] in the order the
    [range] produces them.  A key deleted from [expires] before it is
    reached is not produced. *)

Fixpoint expire_loop (ks : list string) (now : Z) (c : lruCache)
  : result lruCache :=
  match ks with
  | [] => Ok c
  | k :: ks' =>
      match expires c !! k with
      | Some expire =>
          if now >? expire
          then c' ← removeElement (items c !! k) c; expire_loop ks' now c'
          else expire_loop ks' now c
      | None => expire_loop ks' now c
      end
  end.

(** The callbacks of [Clear], one per element the [range] over [items]
    produces. *)

Fixpoint notify_all (es : list (string * nat)) (c : lruCache)
  : result (list (string * Value)) :=
  match es with
  | [] => Ok []
  | (_, elem) :: es' =>
      match elements c !! elem with
      | None => Panic
      | Some entry =>
          rest ← notify_all es' c; Ok ((key entry, value entry) :: rest)
      end
  end.

Section Engine.

(** Go leaves the iteration order of a [range] over a map open:
    [range_order m] is the order in which the entries of [m] come. *)

Variable range_order : ∀ A : Type, gmap string A → list (string * A).

Definition evict (fuel : nat) (now : Z) (c : lruCache) : result lruCache :=
  c1 ← expire_loop ((range_order Z (expires c)).*1) now c;
  capacity_loop fuel c1.

(** [now_set] is the clock read for the expiry instant, [now_evict]
    the later one made by [evict]. *)

Definition SetWithExpiration (fuel : nat) (k : string) (v : option Value)
    (expiration now_set now_evict : Z) (c : lruCache) : result lruCache :=
  match v with
  | None => r ← Delete k c; Ok r.2
  | Some val =>
      let c1 := expires_set k expiration now_set c in
      match items c1 !! k with
      | Some elem =>
          match elements c1 !! elem with
          | None => Panic
          | Some entry =>
              Ok {| lru := list_MoveToBack elem (lru c1);
                    elements := <[elem := mkEntry (key entry) val]> (elements c1);
                    items := items c1;
                    expires := expires c1;
                    maxBytes := maxBytes c1;
                    usedBytes :=
                      wrap64 (usedBytes c1
                              + wrap64 (Value_Len val - Value_Len (value entry)));
                    onEvicted := onEvicted c1;
                    cleanupInterval := cleanupInterval c1;
                    next_elem := next_elem c1;
                    evicted := evicted c1 |}
          end
      | None =>
          let elem := next_elem c1 in
          let entry := mkEntry k val in
          evict fuel now_evict
            {| lru := list_PushBack elem (lru c1);
               elements := <[elem := entry]> (elements c1);
               items := <[k := elem]> (items c1);
               expires := expires c1;
               maxBytes := maxBytes c1;
               usedBytes :=
                 wrap64 (usedBytes c1
                         + wrap64 (Z.of_nat (String.length k) + Value_Len val));
               onEvicted := onEvicted c1;
               cleanupInterval := cleanupInterval c1;
               next_elem := S elem;
               evicted := evicted c1 |}
      end
  end.

(** [Set], named [Set_] here: no expiry, hence no clock read for one. *)

Definition Set_ (fuel : nat) (k : string) (v : option Value) (now_evict : Z)
    (c : lruCache) : result lruCache :=
  SetWithExpiration fuel k v 0 0 now_evict c.

Definition Clear (c : lruCache) : result lruCache :=
  calls ← (if onEvicted c
           then notify_all (range_order nat (items c)) c
           else Ok []);
  Ok {| lru := [];
        elements := elements c;
        items := ∅;
        expires := ∅;
        maxBytes := maxBytes c;
        usedBytes := 0;
        onEvicted := onEvicted c;
        cleanupInterval := cleanupInterval c;
        next_elem := next_elem c;
        evicted := evicted c ++ calls |}.

Definition SetMaxBytes (fuel : nat) (max now : Z) (c : lruCache)
  : result lruCache :=
  let c1 := set_maxBytes max c in
  if 0 <? max then evict fuel now c1 else Ok c1.

(** One firing of the ticker in [cleanupLoop]. *)

Definition cleanupTick (fuel : nat) (now : Z) (c : lruCache)
  : result lruCache :=
  evict fuel now c.

(** A call on the engine, with the clock readings it makes. *)

Inductive call : Type :=
  | CallGet (k : string) (now : Z)
  | CallSet (k : string) (v : option Value) (now_evict : Z)
  | CallSetWithExpiration (k : string) (v : option Value)
      (expiration now_set now_evict : Z)
  | CallDelete (k : string)
  | CallClear
  | CallGetWithExpiration (k : string) (now : Z)
  | CallUpdateExpiration (k : string) (expiration now : Z)
  | CallSetMaxBytes (max now : Z)
  | CallTick (now : Z).

Definition run_call (fuel : nat) (op : call) (c : lruCache)
  : result lruCache :=
  match op with
  | CallGet k now => r ← Get k now c; Ok r.2
  | CallSet k v now_evict => Set_ fuel k v now_evict c
  | CallSetWithExpiration k v expiration now_set now_evict =>
      SetWithExpiration fuel k v expiration now_set now_evict c
  | CallDelete k => r ← Delete k c; Ok r.2
  | CallClear => Clear c
  | CallGetWithExpiration k now => r ← GetWithExpiration k now c; Ok r.2
  | CallUpdateExpiration k expiration now =>
      Ok (UpdateExpiration k expiration now c).2
  | CallSetMaxBytes max now => SetMaxBytes fuel max now c
  | CallTick now => cleanupTick fuel now c
  end.

Fixpoint run_calls (fuel : nat) (ops : list call) (c : lruCache)
  : result lruCache :=
  match ops with
  | [] => Ok c
  | op :: ops' => c' ← run_call fuel op c; run_calls fuel ops' c'
  end.

End Engine.

(** ** store.go: the factory

    A [Store] is an interface value: nil ([None]) or an engine.  Every
    arm of the [switch] returns nil; the constructor calls are commented
    out in the source. *)

Inductive Store : Type :=
  | StoreLRU (c : lruCache).

Definition NewStore (cacheType : string) (opts : Options) : option Store :=
  if decide (cacheType = LRU) then None
  else if decide (cacheType = LRU2) then None
  else None.

(** ** Accounting and well-formed caches *)

(** The sum of the accounted sizes of the elements of the list [l]. *)

Fixpoint sum_sizes (m : gmap nat lruEntry) (l : list nat) : Z :=
  match l with
  | [] => 0
  | e :: l' => from_option entry_size 0 (m !! e) + sum_sizes m l'
  end.

(** The sum over all live entries of key length plus value size. *)

Definition accounted (c : lruCache) : Z := sum_sizes (elements c) (lru c).

(** What the Go runtime and the operations maintain: list elements are
    distinct allocated addresses, the key index is exactly the index of
    the list by entry key, expirations belong to live keys, and
    [usedBytes] is the accounted sum in [int64] arithmetic. *)

Record wf (c : lruCache) : Prop := mkWf {
  wf_nodup : NoDup (lru c);
  wf_items : ∀ k e,
    items c !! k = Some e ↔ e ∈ lru c ∧ key <$> elements c !! e = Some k;
  wf_elements : ∀ e, e ∈ lru c → is_Some (elements c !! e);
  wf_alloc : ∀ e, e ∈ lru c → (e < next_elem c)%nat;
  wf_expires : ∀ k, is_Some (expires c !! k) → is_Some (items c !! k);
  wf_used : usedBytes c = wrap64 (accounted c)
}.

(** The capacity bound. *)

Definition within_budget (c : lruCache) : Prop :=
  0 < maxBytes c → usedBytes c <= maxBytes c.

(** The iteration order the examples run with. *)

Definition go_range : ∀ A : Type, gmap string A → list (string * A) :=
  λ A, map_to_list.

(** An iteration order is admissible when it produces every entry of
    the map exactly once. *)

Definition range_ok (range_order : ∀ A : Type, gmap string A → list (string * A))
  : Prop :=
  ∀ (A : Type) (m : gmap string A), range_order A m ≡ₚ map_to_list m.

(** ** Scenarios *)

Definition v4 : Value := mkValue "abcd" 4.
Definition v20 : Value := mkValue "abcdefghijklmnopqrst" 20.

Definition unlimited : Options := mkOptions 0 16 512 256 Minute true.
Definition budget10 : Options := mkOptions 10 16 512 256 Minute true.

(** Keys A, B, C inserted with unlimited capacity, [Get("A")], then the
    ceiling drops to 10 bytes while 15 are in use. *)

Definition recency_scenario : result lruCache :=
  c1 ← Set_ go_range 8 "A" (Some v4) 0 (newLRUCache unlimited);
  c2 ← Set_ go_range 8 "B" (Some v4) 0 c1;
  c3 ← Set_ go_range 8 "C" (Some v4) 0 c2;
  r ← Get "A" 0 c3;
  SetMaxBytes go_range 8 10 0 r.2.

(** A 4-byte value under key a is overwritten by a 20-byte one, with a
    ceiling of 10 bytes. *)

Definition update_scenario : result lruCache :=
  c1 ← Set_ go_range 8 "a" (Some v4) 0 (newLRUCache budget10);
  Set_ go_range 8 "a" (Some v20) 0 c1.

(** An empty cache that still accounts for 10 bytes. *)

Definition stuck_cache : lruCache :=
  {| lru := [];
     elements := ∅;
     items := ∅;
     expires := ∅;
     maxBytes := 0;
     usedBytes := 10;
     onEvicted := false;
     cleanupInterval := Minute;
     next_elem := 0%nat;
     evicted := [] |}.

(** Two live keys, one with an expiry, reached from a fresh engine. *)

Definition two_keys_calls : list call :=
  [CallSet "a" (Some v4) 0;
   CallSetWithExpiration "x" (Some v20) (50 * Millisecond) 0 0].

Definition two_keys : lruCache :=
  {| lru := [0%nat; 1%nat];
     elements := <[1%nat := mkEntry "x" v20]> {[ 0%nat := mkEntry "a" v4 ]};
     items := <["x" := 1%nat]> {[ "a" := 0%nat ]};
     expires := {[ "x" := 50 * Millisecond ]};
     maxBytes := 0;
     usedBytes := 26;
     onEvicted := true;
     cleanupInterval := Minute;
     next_elem := 2%nat;
     evicted := [] |}.

(** ** lru.go: Close

    What [Close] touches: the ticker pointer ([None] when nil, otherwise
    whether the ticker still runs) and the channel [closeCh].  Closing a
    channel that is already closed panics. *)

Record lifecycle : Type := mkLifecycle {
  cleanupTicker : option bool;
  closeCh_closed : bool
}.

(** The ticker and the channel [newLRUCache] sets up. *)

Definition started : lifecycle :=
  {| cleanupTicker := Some true; closeCh_closed := false |}.

Definition Close (l : lifecycle) : result lifecycle :=
  match cleanupTicker l with
  | Some _ =>
      if closeCh_closed l then Panic
      else Ok {| cleanupTicker := Some false; closeCh_closed := true |}
  | None => Ok l
  end.

(** ** Callbacks and entries

    [next_elem] counts the entries ever inserted.  With a callback
    configured they are the live ones plus one callback each; without
    one the log stays empty. *)


(** The callback arguments for the elements [l], in list order. *)

Definition victims (m : gmap nat lruEntry) (l : list nat)
  : list (string * Value) :=
  omap (λ e, (λ en, (key en, value en)) <$> m !! e) l.

(** The entry of [k] at the back of the list, not expired at the
    instants [t1] and [t2] and admitted by the budget on its own. *)

Definition kept (k : string) (e : nat) (v : Value) (t1 t2 : Z)
    (c : lruCache) : Prop :=
  items c !! k = Some e
  ∧ elements c !! e = Some (mkEntry k v)
  ∧ last (lru c) = Some e
  ∧ (∀ t, expires c !! k = Some t → t1 <= t ∧ t2 <= t)
  ∧ (maxBytes c <= 0 ∨ wrap64 (entry_size (mkEntry k v)) <= maxBytes c).

(** ** Stored values and their owners

    An entry holds the value object the caller passed in.  When the
    caller changes such an object, every entry holding it sees the new
    state, and with it the new [Len()]; the cache itself is not told.
    [f] gives the new state of each object. *)

Definition caller_mutates (f : Value → Value) (c : lruCache) : lruCache :=
  mkCache (lru c)
          ((λ en, mkEntry (key en) (f (value en))) <$> elements c)
          (items c) (expires c) (maxBytes c) (usedBytes c)
          (onEvicted c) (cleanupInterval c) (next_elem c) (evicted c).

(** What happens to an engine: a call on it, or a change made by a
    caller to the objects it stores. *)

Inductive event : Type :=
  | Call (op : call)
  | Mutate (f : Value → Value).

Definition run_event
    (range_order : ∀ A : Type, gmap string A → list (string * A))
    (fuel : nat) (ev : event) (c : lruCache) : result lruCache :=
  match ev with
  | Call op => run_call range_order fuel op c
  | Mutate f => Ok (caller_mutates f c)
  end.

Fixpoint run_events
    (range_order : ∀ A : Type, gmap string A → list (string * A))
    (fuel : nat) (evs : list event) (c : lruCache) : result lruCache :=
  match evs with
  | [] => Ok c
  | ev :: evs' =>
      c' ← run_event range_order fuel ev c; run_events range_order fuel evs' c'
  end.

(** An event that leaves the size every object reports as it is. *)


(** The goroutines a call started, run one after the other. *)

Fixpoint run_goroutines (gs : list goroutine) (c : lruCache)
  : result lruCache :=
  match gs with
  | [] => Ok c
  | g :: gs' => c' ← run_goroutine g c; run_goroutines gs' c'
  end.

(** What one more write or delete does to the accounting of [c]: an
    insert adds the key length and the value size and the eviction that
    follows takes away the accounted size of each element in [removed];
    an update in place adds the difference of the value sizes; a delete
    takes away the accounted size of the entry. *)


(** Scenario: a 10-byte buffer is stored under k, emptied by its owner,
    and the key deleted. *)

Definition buf10 : Value := mkValue "0123456789" 10.
Definition buf_reset (v : Value) : Value := mkValue "" 0.

Definition drift_events : list event :=
  [Call (CallSet "k" (Some buf10) 0);
   Mutate buf_reset;
   Call (CallDelete "k")].

(** Scenario: a value that reports the largest [int]. *)


(** Scenario: the cache of a fresh engine after the first write of [k]
    with expiry instant [T], and what it means for a cache to hold
    nothing. *)

Definition one_entry (opts : Options) (k : string) (v : Value) (T : Z)
  : lruCache :=
  {| lru := [0%nat];
     elements := {[ 0%nat := mkEntry k v ]};
     items := {[ k := 0%nat ]};
     expires := {[ k := T ]};
     maxBytes := MaxBytes opts;
     usedBytes := wrap64 (Z.of_nat (String.length k) + Value_Len v);
     onEvicted := OnEvicted opts;
     cleanupInterval := cleanupInterval (newLRUCache opts);
     next_elem := 1%nat;
     evicted := [] |}.

Definition emptied (c : lruCache) : Prop :=
  lru c = [] ∧ items c = ∅ ∧ expires c = ∅ ∧ usedBytes c = 0.

(** The addresses [0 .. next_elem - 1] are the entries ever inserted.
    With a callback configured each of them is either in the list or in
    [gone], once, and the callback log is the key and the value of each
    element of [gone], in that order.  The entry of an element that has
    left the list is never written again, so [elements] holds it as it
    was when it left. *)


(** What can happen after a [Get] has started goroutines [gs] and
    before the caller looks at the cache again: the ticker fires, or the
    scheduler runs the started goroutines. *)

Inductive later : Type :=
  | LaterTick (t : Z)
  | LaterGo.

Fixpoint run_later
    (range_order : ∀ A : Type, gmap string A → list (string * A))
    (fuel : nat) (ls : list later) (gs : list goroutine) (c : lruCache)
  : result lruCache :=
  match ls with
  | [] => Ok c
  | LaterTick t :: ls' =>
      c' ← cleanupTick range_order fuel t c;
      run_later range_order fuel ls' gs c'
  | LaterGo :: ls' =>
      c' ← run_goroutines gs c;
      run_later range_order fuel ls' [] c'
  end.

(** A step that removes an entry whose expiry instant is [T]: a firing
    of the ticker past [T], or the run of the started [Delete]. *)

Definition removes (T : Z) (l : later) : Prop :=
  match l with
  | LaterTick t => T < t
  | LaterGo => True
  end.

(** * Properties *)

(** ** Wrap-around *)

Lemma wrap64_small z : in_int64 z → wrap64 z = z.
Proof.
  unfold in_int64, wrap64. intros H.
  rewrite Z.mod_small by lia. lia.
Qed.

Lemma wrap64_range z : in_int64 (wrap64 z).
Proof.
  unfold in_int64, wrap64.
  pose proof (Z.mod_pos_bound (z + 2 ^ 63) (2 ^ 64) ltac:(lia)). lia.
Qed.

Lemma wrap64_add_r a b : wrap64 (a + wrap64 b) = wrap64 (a + b).
Proof.
  unfold wrap64. f_equal.
  replace (a + ((b + 2 ^ 63) mod 2 ^ 64 - 2 ^ 63) + 2 ^ 63)
    with (a + (b + 2 ^ 63) mod 2 ^ 64) by lia.
  rewrite Zplus_mod_idemp_r. f_equal. lia.
Qed.

Lemma wrap64_add_l a b : wrap64 (wrap64 a + b) = wrap64 (a + b).
Proof. rewrite (Z.add_comm (wrap64 a)), wrap64_add_r. f_equal. lia. Qed.

Lemma wrap64_sub_r a b : wrap64 (a - wrap64 b) = wrap64 (a - b).
Proof.
  unfold wrap64. f_equal.
  replace (a - ((b + 2 ^ 63) mod 2 ^ 64 - 2 ^ 63) + 2 ^ 63)
    with (a + 2 ^ 64 - (b + 2 ^ 63) mod 2 ^ 64) by lia.
  rewrite Zminus_mod_idemp_r. f_equal. lia.
Qed.

Lemma wrap64_sub_l a b : wrap64 (wrap64 a - b) = wrap64 (a - b).
Proof.
  replace (wrap64 a - b) with (wrap64 a + (- b)) by lia.
  rewrite wrap64_add_l. f_equal; lia.
Qed.

Lemma wrap64_0 : wrap64 0 = 0.
Proof. reflexivity. Qed.

(** ** The list *)

Lemma elem_of_list_Remove e x l : x ∈ list_Remove e l ↔ x ≠ e ∧ x ∈ l.
Proof. unfold list_Remove. by rewrite list_elem_of_filter. Qed.

Lemma NoDup_list_Remove e l : NoDup l → NoDup (list_Remove e l).
Proof. apply NoDup_filter. Qed.

Lemma list_Remove_notin e l : e ∉ l → list_Remove e l = l.
Proof.
  unfold list_Remove. induction l as [|x l IH]; intros Hn; [done|].
  apply not_elem_of_cons in Hn as [Hne Hn].
  rewrite filter_cons_True by congruence. f_equal. auto.
Qed.

Lemma list_Remove_cons_eq e l : list_Remove e (e :: l) = list_Remove e l.
Proof.
  unfold list_Remove. rewrite filter_cons_False; [done|]. by intros ?.
Qed.

Lemma list_Remove_cons_ne e x l :
  x ≠ e → list_Remove e (x :: l) = x :: list_Remove e l.
Proof. intros. unfold list_Remove. by rewrite filter_cons_True. Qed.

Lemma length_list_Remove e l :
  NoDup l → e ∈ l → S (length (list_Remove e l)) = length l.
Proof.
  induction l as [|x l IH]; intros Hnd Hin; [by apply elem_of_nil in Hin|].
  apply NoDup_cons in Hnd as [Hx Hnd].
  destruct (decide (x = e)) as [->|Hne].
  - rewrite list_Remove_cons_eq, list_Remove_notin by done. done.
  - rewrite list_Remove_cons_ne by done. simpl. f_equal.
    apply IH; [done|]. apply elem_of_cons in Hin as [?|?]; [congruence|done].
Qed.

Lemma elem_of_list_MoveToFront e x l : x ∈ list_MoveToFront e l ↔ x ∈ l.
Proof.
  unfold list_MoveToFront. case_decide; [|done].
  rewrite elem_of_cons, elem_of_list_Remove.
  destruct (decide (x = e)) as [->|Hne]; tauto.
Qed.

Lemma elem_of_list_MoveToBack e x l : x ∈ list_MoveToBack e l ↔ x ∈ l.
Proof.
  unfold list_MoveToBack. case_decide; [|done].
  rewrite elem_of_app, elem_of_list_Remove, list_elem_of_singleton.
  destruct (decide (x = e)) as [->|Hne]; tauto.
Qed.

Lemma NoDup_list_MoveToFront e l : NoDup l → NoDup (list_MoveToFront e l).
Proof.
  intros Hnd. unfold list_MoveToFront. case_decide; [|done].
  apply NoDup_cons. split; [|by apply NoDup_list_Remove].
  rewrite elem_of_list_Remove. by intros [? _].
Qed.

Lemma NoDup_list_MoveToBack e l : NoDup l → NoDup (list_MoveToBack e l).
Proof.
  intros Hnd. unfold list_MoveToBack. case_decide; [|done].
  apply NoDup_app. split_and!; [by apply NoDup_list_Remove| |apply NoDup_singleton].
  intros x [Hne _]%elem_of_list_Remove Hx%list_elem_of_singleton. done.
Qed.

Lemma length_list_MoveToFront e l :
  NoDup l → length (list_MoveToFront e l) = length l.
Proof.
  intros Hnd. unfold list_MoveToFront. case_decide; [|done].
  simpl. by apply length_list_Remove.
Qed.

Lemma length_list_MoveToBack e l :
  NoDup l → length (list_MoveToBack e l) = length l.
Proof.
  intros Hnd. unfold list_MoveToBack. case_decide; [|done].
  rewrite length_app. simpl. rewrite <- (length_list_Remove e l) by done. lia.
Qed.

(** ** Sums of accounted sizes *)

Lemma sum_sizes_app m l1 l2 :
  sum_sizes m (l1 ++ l2) = sum_sizes m l1 + sum_sizes m l2.
Proof. induction l1 as [|x l1 IH]; simpl; lia. Qed.

Lemma sum_sizes_Remove m e l :
  NoDup l → e ∈ l →
  sum_sizes m (list_Remove e l)
  = sum_sizes m l - from_option entry_size 0 (m !! e).
Proof.
  induction l as [|x l IH]; intros Hnd Hin; [by apply elem_of_nil in Hin|].
  apply NoDup_cons in Hnd as [Hx Hnd].
  destruct (decide (x = e)) as [->|Hne].
  - rewrite list_Remove_cons_eq, list_Remove_notin by done. simpl. lia.
  - rewrite list_Remove_cons_ne by done. simpl.
    rewrite IH; [lia|done|].
    apply elem_of_cons in Hin as [?|?]; [congruence|done].
Qed.

Lemma sum_sizes_MoveToFront m e l :
  NoDup l → sum_sizes m (list_MoveToFront e l) = sum_sizes m l.
Proof.
  intros Hnd. unfold list_MoveToFront. case_decide; [|done].
  simpl. rewrite sum_sizes_Remove by done. lia.
Qed.

Lemma sum_sizes_MoveToBack m e l :
  NoDup l → sum_sizes m (list_MoveToBack e l) = sum_sizes m l.
Proof.
  intros Hnd. unfold list_MoveToBack. case_decide; [|done].
  rewrite sum_sizes_app, sum_sizes_Remove by done. simpl. lia.
Qed.

Lemma sum_sizes_insert_notin m e en l :
  e ∉ l → sum_sizes (<[e := en]> m) l = sum_sizes m l.
Proof.
  induction l as [|x l IH]; intros Hn; [done|].
  apply not_elem_of_cons in Hn as [Hne Hn].
  simpl. rewrite lookup_insert_ne by done. by rewrite IH.
Qed.

Lemma sum_sizes_insert_in m e en l :
  NoDup l → e ∈ l →
  sum_sizes (<[e := en]> m) l
  = sum_sizes m l - from_option entry_size 0 (m !! e) + entry_size en.
Proof.
  induction l as [|x l IH]; intros Hnd Hin; [by apply elem_of_nil in Hin|].
  apply NoDup_cons in Hnd as [Hx Hnd]. simpl.
  destruct (decide (x = e)) as [->|Hne].
  - rewrite lookup_insert_eq, sum_sizes_insert_notin by done. simpl. lia.
  - rewrite lookup_insert_ne by done. rewrite IH; [lia|done|].
    apply elem_of_cons in Hin as [?|?]; [congruence|done].
Qed.

(** ** The invariant is kept *)

Lemma wf_newLRUCache opts : wf (newLRUCache opts).
Proof.
  split; simpl.
  - apply NoDup_nil_2.
  - intros k e. rewrite lookup_empty. split; [done|].
    intros [H _]. by apply elem_of_nil in H.
  - intros e H. by apply elem_of_nil in H.
  - intros e H. by apply elem_of_nil in H.
  - intros k. rewrite lookup_empty. by intros [? ?].
  - reflexivity.
Qed.

Lemma wf_items_elem c k e :
  wf c → items c !! k = Some e →
  e ∈ lru c ∧ ∃ v, elements c !! e = Some (mkEntry k v).
Proof.
  intros Hwf Hk. apply (wf_items c Hwf) in Hk as [Hin Hkey]. split; [done|].
  destruct (elements c !! e) as [[k' v]|]; simplify_eq/=. eauto.
Qed.

(** [removeElement] on an element of the list returns, and removes
    exactly that element and its key. *)

Lemma removeElement_wf c e :
  wf c → e ∈ lru c →
  ∃ c' en, removeElement (Some e) c = Ok c'
    ∧ elements c !! e = Some en
    ∧ wf c'
    ∧ lru c' = list_Remove e (lru c)
    ∧ items c' = delete (key en) (items c)
    ∧ expires c' = delete (key en) (expires c)
    ∧ maxBytes c' = maxBytes c
    ∧ onEvicted c' = onEvicted c
    ∧ S (length (lru c')) = length (lru c).
Proof.
  intros Hwf Hin.
  destruct (wf_elements c Hwf e Hin) as [en Hen].
  unfold removeElement. rewrite Hen.
  eexists _, en. split; [reflexivity|]. split; [done|].
  assert (Hk : items c !! key en = Some e).
  { apply (wf_items c Hwf). by rewrite Hen. }
  split_and!; simpl; try done;
    [|apply length_list_Remove; [apply Hwf|done]].
  split; simpl.
  - apply NoDup_list_Remove, Hwf.
  - intros k e'. rewrite elem_of_list_Remove.
    destruct (decide (k = key en)) as [->|Hne].
    + rewrite lookup_delete_eq. split; [done|].
      intros [[Hne' Hin'] Hkey]. exfalso. apply Hne'.
      assert (items c !! key en = Some e') as Hk'
        by (by apply (wf_items c Hwf)).
      congruence.
    + rewrite lookup_delete_ne by done. rewrite (wf_items c Hwf).
      split; [|tauto]. intros [Hin' Hkey]. split_and!; try done.
      intros ->. rewrite Hen in Hkey. simpl in Hkey. congruence.
  - intros e' [_ ?]%elem_of_list_Remove. by apply Hwf.
  - intros e' [_ ?]%elem_of_list_Remove. by apply Hwf.
  - intros k. destruct (decide (k = key en)) as [->|Hne].
    + rewrite lookup_delete_eq. by intros [? ?].
    + rewrite !lookup_delete_ne by done. apply Hwf.
  - rewrite (wf_used c Hwf). unfold accounted. simpl.
    rewrite sum_sizes_Remove by (done || apply Hwf).
    rewrite Hen. simpl. by rewrite wrap64_sub_r, wrap64_sub_l.
Qed.

Lemma expire_loop_wf ks now c :
  wf c →
  ∃ c', expire_loop ks now c = Ok c'
    ∧ wf c'
    ∧ (length (lru c') ≤ length (lru c))%nat
    ∧ maxBytes c' = maxBytes c
    ∧ onEvicted c' = onEvicted c.
Proof.
  revert c. induction ks as [|k ks IH]; intros c Hwf; simpl.
  { by exists c. }
  destruct (expires c !! k) as [expire|] eqn:Hexp; [|by apply IH].
  destruct (now >? expire); [|by apply IH].
  destruct (wf_expires c Hwf k) as [e He]; [by rewrite Hexp|].
  destruct (wf_items_elem c k e Hwf He) as [Hin _].
  destruct (removeElement_wf c e Hwf Hin)
    as (c1 & en & Hrm & _ & Hwf1 & _ & _ & _ & Hmax & Hcb & Hlen).
  rewrite He, Hrm. simpl.
  destruct (IH c1 Hwf1) as (c' & Hrun & Hwf' & Hlen' & Hmax' & Hcb').
  exists c'. split_and!; [done|done|lia|congruence|congruence].
Qed.

Lemma capacity_loop_unfold fuel c :
  capacity_loop fuel c =
  if (0 <? maxBytes c) && (maxBytes c <? usedBytes c) then
    match fuel with
    | O => OutOfFuel
    | S fuel' =>
        match list_Front (lru c) with
        | Some e => c' ← removeElement (Some e) c; capacity_loop fuel' c'
        | None => capacity_loop fuel' c
        end
    end
  else Ok c.
Proof. by destruct fuel. Qed.

(** With nothing in the list, a well-formed cache accounts for no bytes. *)

Lemma wf_empty_used c : wf c → lru c = [] → usedBytes c = 0.
Proof.
  intros Hwf Hnil. rewrite (wf_used c Hwf). unfold accounted.
  by rewrite Hnil.
Qed.

(** On a well-formed cache the capacity pass returns within
    [length (lru c)] rounds, inside the budget. *)

Lemma capacity_loop_wf fuel c :
  wf c → (length (lru c) ≤ fuel)%nat →
  ∃ c', capacity_loop fuel c = Ok c'
    ∧ wf c'
    ∧ within_budget c'
    ∧ (length (lru c') ≤ length (lru c))%nat
    ∧ maxBytes c' = maxBytes c
    ∧ onEvicted c' = onEvicted c.
Proof.
  revert c. induction fuel as [|fuel IH]; intros c Hwf Hlen;
    rewrite capacity_loop_unfold;
    destruct ((0 <? maxBytes c) && (maxBytes c <? usedBytes c)) eqn:Hcond.
  - apply andb_true_iff in Hcond as [H1%Z.ltb_lt H2%Z.ltb_lt].
    rewrite (wf_empty_used c) in H2; [lia|done|].
    apply nil_length_inv. lia.
  - exists c. split_and!; try done. intros Hpos.
    apply andb_false_iff in Hcond as [H%Z.ltb_ge|H%Z.ltb_ge]; lia.
  - apply andb_true_iff in Hcond as [H1%Z.ltb_lt H2%Z.ltb_lt].
    destruct (lru c) as [|e l] eqn:Hlru.
    { rewrite (wf_empty_used c) in H2; [lia|done..]. }
    change (list_Front (e :: l)) with (Some e). cbv beta iota.
    destruct (removeElement_wf c e Hwf)
      as (c1 & en & Hrm & _ & Hwf1 & _ & _ & _ & Hmax & Hcb & Hlen1).
    { rewrite Hlru. apply elem_of_cons. by left. }
    rewrite Hrm. simpl. rewrite Hlru in Hlen1. simpl in Hlen1, Hlen.
    destruct (IH c1 Hwf1) as (c' & Hrun & Hwf' & Hb & Hlen' & Hmax' & Hcb');
      [lia|].
    exists c'. split_and!; [done|done|done|simpl; lia|congruence|congruence].
  - exists c. split_and!; try done. intros Hpos.
    apply andb_false_iff in Hcond as [H%Z.ltb_ge|H%Z.ltb_ge]; lia.
Qed.

Section EngineFacts.

Variable range_order : ∀ A : Type, gmap string A → list (string * A).

Lemma evict_wf fuel now c :
  wf c → (length (lru c) ≤ fuel)%nat →
  ∃ c', evict range_order fuel now c = Ok c'
    ∧ wf c'
    ∧ within_budget c'
    ∧ (length (lru c') ≤ length (lru c))%nat
    ∧ maxBytes c' = maxBytes c
    ∧ onEvicted c' = onEvicted c.
Proof.
  intros Hwf Hlen. unfold evict.
  destruct (expire_loop_wf ((range_order Z (expires c)).*1) now c Hwf)
    as (c1 & Hrun1 & Hwf1 & Hlen1 & Hmax1 & Hcb1).
  rewrite Hrun1. simpl.
  destruct (capacity_loop_wf fuel c1 Hwf1)
    as (c' & Hrun & Hwf' & Hb & Hlen' & Hmax' & Hcb'); [lia|].
  exists c'. split_and!; [done|done|done|lia|congruence|congruence].
Qed.

End EngineFacts.

Lemma wf_set_lru c l :
  wf c → NoDup l → (∀ x, x ∈ l ↔ x ∈ lru c) →
  sum_sizes (elements c) l = sum_sizes (elements c) (lru c) →
  wf (set_lru l c).
Proof.
  intros Hwf Hnd Hin Hsum. split; simpl.
  - done.
  - intros k e. rewrite Hin. apply Hwf.
  - intros e He%Hin. by apply Hwf.
  - intros e He%Hin. by apply Hwf.
  - apply Hwf.
  - unfold accounted. simpl. rewrite Hsum. apply Hwf.
Qed.

Lemma wf_set_expires c x :
  wf c → (∀ k, is_Some (x !! k) → is_Some (items c !! k)) →
  wf (set_expires x c).
Proof. intros Hwf Hx. split; simpl; try apply Hwf. done. Qed.

Lemma wf_set_maxBytes c m : wf c → wf (set_maxBytes m c).
Proof. intros Hwf. split; simpl; apply Hwf. Qed.

Lemma Delete_wf k c :
  wf c →
  ∃ b c', Delete k c = Ok (b, c')
    ∧ wf c'
    ∧ (length (lru c') ≤ length (lru c))%nat
    ∧ maxBytes c' = maxBytes c.
Proof.
  intros Hwf. unfold Delete.
  destruct (items c !! k) as [e|] eqn:Hk.
  - destruct (wf_items_elem c k e Hwf Hk) as [Hin _].
    destruct (removeElement_wf c e Hwf Hin)
      as (c1 & en & Hrm & _ & Hwf1 & _ & _ & _ & Hmax & _ & Hlen).
    rewrite Hrm. simpl. exists true, c1. split_and!; [done|done|lia|done].
  - exists false, c. by split_and!.
Qed.

Lemma Get_wf k now c :
  wf c →
  ∃ r c', Get k now c = Ok (r, c')
    ∧ wf c'
    ∧ length (lru c') = length (lru c)
    ∧ maxBytes c' = maxBytes c.
Proof.
  intros Hwf. unfold Get.
  destruct (items c !! k) as [e|] eqn:Hk; [|by eexists _, c].
  destruct (match expires c !! k with
            | Some expire => now >? expire | None => false end);
    [by eexists _, c|].
  destruct (wf_items_elem c k e Hwf Hk) as [Hin [v Hv]]. rewrite Hv.
  eexists _, _. split; [reflexivity|]. split_and!; simpl.
  - apply wf_set_lru; [done|by apply NoDup_list_MoveToFront, Hwf| |].
    + intros x. apply elem_of_list_MoveToFront.
    + by apply sum_sizes_MoveToFront, Hwf.
  - by apply length_list_MoveToFront, Hwf.
  - done.
Qed.

Lemma wf_touch_back c e :
  wf c → wf (set_lru (list_MoveToBack e (lru c)) c).
Proof.
  intros Hwf.
  apply wf_set_lru; [done|by apply NoDup_list_MoveToBack, Hwf| |].
  - intros x. apply elem_of_list_MoveToBack.
  - by apply sum_sizes_MoveToBack, Hwf.
Qed.

Lemma GetWithExpiration_wf k now c :
  wf c →
  ∃ r c', GetWithExpiration k now c = Ok (r, c')
    ∧ wf c'
    ∧ length (lru c') = length (lru c)
    ∧ maxBytes c' = maxBytes c.
Proof.
  intros Hwf. unfold GetWithExpiration.
  destruct (items c !! k) as [e|] eqn:Hk; [|by eexists _, c].
  destruct (wf_items_elem c k e Hwf Hk) as [Hin [v Hv]].
  destruct (expires c !! k) as [expire|].
  - destruct (now >? expire); [by eexists _, c|].
    simpl. rewrite Hv. eexists _, _. split; [reflexivity|].
    split_and!; simpl; [by apply wf_touch_back| |done].
    by apply length_list_MoveToBack, Hwf.
  - simpl. rewrite Hv. eexists _, _. split; [reflexivity|].
    split_and!; simpl; [by apply wf_touch_back| |done].
    by apply length_list_MoveToBack, Hwf.
Qed.

Lemma UpdateExpiration_wf k expiration now c :
  wf c →
  wf (UpdateExpiration k expiration now c).2
  ∧ lru (UpdateExpiration k expiration now c).2 = lru c
  ∧ maxBytes (UpdateExpiration k expiration now c).2 = maxBytes c.
Proof.
  intros Hwf. unfold UpdateExpiration.
  destruct (items c !! k) as [e|] eqn:Hk; [|done].
  destruct (0 <? expiration); simpl; (split; [|done]);
    apply wf_set_expires; try done; intros k'.
  - destruct (decide (k = k')) as [<-|Hne].
    + by rewrite Hk.
    + rewrite lookup_insert_ne by done. apply Hwf.
  - destruct (decide (k = k')) as [<-|Hne].
    + by rewrite Hk.
    + rewrite lookup_delete_ne by done. apply Hwf.
Qed.

(** The callbacks [Clear] makes: one per produced element, carrying the
    key and the value of that element's entry. *)

Lemma notify_all_ok es c :
  (∀ k e, (k, e) ∈ es → ∃ v, elements c !! e = Some (mkEntry k v)) →
  ∃ calls, notify_all es c = Ok calls
    ∧ calls.*1 = es.*1
    ∧ ∀ k v, (k, v) ∈ calls →
        ∃ e, (k, e) ∈ es ∧ elements c !! e = Some (mkEntry k v).
Proof.
  induction es as [|[k e] es IH]; intros Hes; simpl.
  { exists []. split_and!; try done. intros k v H. by apply elem_of_nil in H. }
  destruct (Hes k e) as [v Hv]; [apply elem_of_cons; by left|].
  rewrite Hv.
  destruct IH as (calls & Hrun & Hkeys & Hvals).
  { intros k' e' Hin. apply Hes. apply elem_of_cons. by right. }
  rewrite Hrun. simpl. eexists. split; [reflexivity|]. split.
  - rewrite !fmap_cons. simpl. by f_equal.
  - intros k' v' [Heq|Hin]%elem_of_cons.
    + simplify_eq. exists e. split; [apply elem_of_cons; by left|done].
    + destruct (Hvals k' v' Hin) as (e' & He' & Hv').
      exists e'. split; [apply elem_of_cons; by right|done].
Qed.

Section EngineInvariant.

Variable range_order : ∀ A : Type, gmap string A → list (string * A).

Hypothesis range_order_perm : range_ok range_order.

Lemma expires_set_frame k expiration now c :
  lru (expires_set k expiration now c) = lru c
  ∧ elements (expires_set k expiration now c) = elements c
  ∧ items (expires_set k expiration now c) = items c
  ∧ maxBytes (expires_set k expiration now c) = maxBytes c
  ∧ usedBytes (expires_set k expiration now c) = usedBytes c
  ∧ onEvicted (expires_set k expiration now c) = onEvicted c
  ∧ next_elem (expires_set k expiration now c) = next_elem c
  ∧ evicted (expires_set k expiration now c) = evicted c.
Proof. unfold expires_set. by destruct (0 <? expiration). Qed.

(** The expirations [SetWithExpiration] leaves: all of live keys once
    [k] is one. *)

Lemma expires_set_live k expiration now_set c k' :
  wf c →
  is_Some (expires (expires_set k expiration now_set c) !! k') →
  k' = k ∨ is_Some (items c !! k').
Proof.
  intros Hwf. unfold expires_set.
  destruct (decide (k' = k)) as [->|Hne]; [by left|]. right.
  destruct (0 <? expiration); simpl in *.
  - rewrite lookup_insert_ne in H by done. by apply Hwf.
  - rewrite lookup_delete_ne in H by done. by apply Hwf.
Qed.

(** Updating a present key in place: no eviction follows. *)

Lemma SetWithExpiration_update fuel k val expiration now_set now_evict c e :
  wf c → items c !! k = Some e →
  ∃ c' old,
    SetWithExpiration range_order fuel k (Some val) expiration
      now_set now_evict c = Ok c'
    ∧ elements c !! e = Some (mkEntry k old)
    ∧ wf c'
    ∧ lru c' = list_MoveToBack e (lru c)
    ∧ items c' = items c
    ∧ elements c' = <[e := mkEntry k val]> (elements c)
    ∧ maxBytes c' = maxBytes c
    ∧ evicted c' = evicted c
    ∧ usedBytes c'
      = wrap64 (usedBytes c + wrap64 (Value_Len val - Value_Len old)).
Proof.
  intros Hwf Hk.
  destruct (wf_items_elem c k e Hwf Hk) as [Hin [old Hold]].
  unfold SetWithExpiration.
  cbv zeta.
  destruct (expires_set_frame k expiration now_set c)
    as (Hl & Hel & Hit & Hm & Hu & Hcb & Hn & Hev).
  rewrite Hit, Hk, Hel, Hold, Hl, Hu, Hm, Hn, Hev. simpl.
  eexists _, old. split; [reflexivity|]. split; [done|].
  split_and!; simpl; try done.
  pose proof (wf_nodup c Hwf) as Hnd.
  split; simpl.
  - by apply NoDup_list_MoveToBack.
  - intros k' e'. rewrite elem_of_list_MoveToBack.
    destruct (decide (e' = e)) as [->|Hne].
    + rewrite lookup_insert_eq. simpl. rewrite (wf_items c Hwf), Hold.
      simpl. tauto.
    + rewrite lookup_insert_ne by done. apply Hwf.
  - intros e' He'%elem_of_list_MoveToBack.
    apply lookup_insert_is_Some'. right. by apply Hwf.
  - intros e' He'%elem_of_list_MoveToBack. by apply Hwf.
  - intros k' Hk'. apply expires_set_live in Hk' as [->|?]; [|done..].
    by rewrite Hk.
  - unfold accounted. simpl.
    rewrite sum_sizes_MoveToBack, sum_sizes_insert_in by done.
    rewrite Hold. simpl. rewrite (wf_used c Hwf), wrap64_add_r, wrap64_add_l.
    unfold accounted, entry_size. simpl. f_equal. lia.
Qed.

(** Inserting an absent key: the entry goes to the back of the list
    and [evict] runs. *)

Lemma SetWithExpiration_insert fuel k val expiration now_set now_evict c :
  wf c → items c !! k = None → (length (lru c) < fuel)%nat →
  ∃ c',
    SetWithExpiration range_order fuel k (Some val) expiration
      now_set now_evict c = Ok c'
    ∧ wf c'
    ∧ within_budget c'
    ∧ (length (lru c') ≤ S (length (lru c)))%nat
    ∧ maxBytes c' = maxBytes c.
Proof.
  intros Hwf Hk Hfuel. unfold SetWithExpiration.
  cbv zeta.
  destruct (expires_set_frame k expiration now_set c)
    as (Hl & Hel & Hit & Hm & Hu & Hcb & Hn & Hev).
  rewrite Hit, Hk, Hel, Hl, Hu, Hm, Hn.
  assert (Hfresh : next_elem c ∉ lru c).
  { intros Hin%(wf_alloc c Hwf). lia. }
  match goal with
  | |- ∃ c', evict _ _ _ ?c2 = _ ∧ _ => set (c2' := c2)
  end.
  assert (Hwf2 : wf c2').
  { split; simpl.
    - apply NoDup_app. split_and!; [apply Hwf| |apply NoDup_singleton].
      intros x Hx ->%list_elem_of_singleton. done.
    - intros k' e'. unfold list_PushBack.
      rewrite elem_of_app, list_elem_of_singleton.
      destruct (decide (e' = next_elem c)) as [->|Hne].
      + rewrite lookup_insert_eq. simpl.
        destruct (decide (k' = k)) as [->|Hnk].
        * rewrite lookup_insert_eq. tauto.
        * rewrite lookup_insert_ne by done. split.
          -- intros [Hin _]%(wf_items c Hwf). done.
          -- intros [_ ?]. congruence.
      + rewrite (lookup_insert_ne (elements c)) by done.
        destruct (decide (k' = k)) as [->|Hnk].
        * rewrite lookup_insert_eq. split; [congruence|].
          intros [[Hin|?] Hkey]; [|done].
          assert (items c !! k = Some e') by (by apply (wf_items c Hwf)).
          congruence.
        * rewrite lookup_insert_ne by done. rewrite (wf_items c Hwf).
          tauto.
    - intros e' [He' | ->%list_elem_of_singleton]%elem_of_app.
      + apply lookup_insert_is_Some'. right. by apply Hwf.
      + rewrite lookup_insert_eq. eauto.
    - intros e' [He'%(wf_alloc c Hwf) | ->%list_elem_of_singleton]%elem_of_app;
        lia.
    - intros k' Hk'. apply expires_set_live in Hk' as [->|?]; [| |done].
      + rewrite lookup_insert_eq. eauto.
      + apply lookup_insert_is_Some'. by right.
    - unfold accounted. simpl. unfold list_PushBack.
      rewrite sum_sizes_app, sum_sizes_insert_notin by done. simpl.
      rewrite lookup_insert_eq. simpl.
      rewrite (wf_used c Hwf), wrap64_add_r, wrap64_add_l.
      unfold accounted, entry_size. simpl. f_equal. lia. }
  destruct (evict_wf range_order fuel now_evict c2' Hwf2)
    as (c' & Hrun & Hwf' & Hb & Hlen & Hmax & _).
  { subst c2'. simpl. unfold list_PushBack. rewrite length_app. simpl. lia. }
  exists c'. split_and!; try done.
  subst c2'. simpl in Hlen. unfold list_PushBack in Hlen.
  rewrite length_app in Hlen. simpl in Hlen. lia.
Qed.

Lemma SetWithExpiration_wf fuel k v expiration now_set now_evict c :
  wf c → (length (lru c) < fuel)%nat →
  ∃ c',
    SetWithExpiration range_order fuel k v expiration now_set now_evict c
      = Ok c'
    ∧ wf c'
    ∧ (length (lru c') ≤ S (length (lru c)))%nat
    ∧ maxBytes c' = maxBytes c.
Proof.
  intros Hwf Hfuel. destruct v as [val|].
  - destruct (items c !! k) as [e|] eqn:Hk.
    + destruct (SetWithExpiration_update fuel k val expiration now_set
                  now_evict c e Hwf Hk)
        as (c' & old & Hrun & _ & Hwf' & Hlru & _ & _ & Hmax & _).
      exists c'. split_and!; try done.
      rewrite Hlru, length_list_MoveToBack by apply Hwf. lia.
    + destruct (SetWithExpiration_insert fuel k val expiration now_set
                  now_evict c Hwf Hk Hfuel)
        as (c' & Hrun & Hwf' & _ & Hlen & Hmax).
      by exists c'.
  - simpl. destruct (Delete_wf k c Hwf) as (b & c' & Hrun & Hwf' & Hlen & Hmax).
    rewrite Hrun. simpl. exists c'. split_and!; [done|done|lia|done].
Qed.

(** Every entry of the key index points to an allocated element that
    carries that key. *)

Lemma range_items_sound c k e :
  wf c → (k, e) ∈ range_order nat (items c) →
  ∃ v, elements c !! e = Some (mkEntry k v).
Proof.
  intros Hwf Hin. rewrite (range_order_perm nat (items c)) in Hin.
  apply elem_of_map_to_list in Hin.
  by destruct (wf_items_elem c k e Hwf Hin) as [_ ?].
Qed.

Lemma Clear_wf c :
  wf c →
  ∃ c', Clear range_order c = Ok c'
    ∧ wf c'
    ∧ lru c' = []
    ∧ maxBytes c' = maxBytes c.
Proof.
  intros Hwf. unfold Clear.
  assert (∃ calls,
    (if onEvicted c then notify_all (range_order nat (items c)) c else Ok [])
    = Ok calls) as [calls ->].
  { destruct (onEvicted c); [|by eexists].
    destruct (notify_all_ok (range_order nat (items c)) c) as (calls & ? & _).
    - intros k e. by apply range_items_sound.
    - by exists calls. }
  simpl. eexists. split; [reflexivity|]. split_and!; try done.
  split; simpl.
  - apply NoDup_nil_2.
  - intros k e. rewrite lookup_empty. split; [done|].
    intros [H _]. by apply elem_of_nil in H.
  - intros e H. by apply elem_of_nil in H.
  - intros e H. by apply elem_of_nil in H.
  - intros k. rewrite lookup_empty. by intros [? ?].
  - reflexivity.
Qed.

Lemma SetMaxBytes_wf fuel max now c :
  wf c → (length (lru c) ≤ fuel)%nat →
  ∃ c', SetMaxBytes range_order fuel max now c = Ok c'
    ∧ wf c'
    ∧ within_budget c'
    ∧ (length (lru c') ≤ length (lru c))%nat
    ∧ maxBytes c' = max.
Proof.
  intros Hwf Hfuel. unfold SetMaxBytes. cbv zeta.
  destruct (0 <? max) eqn:Hmax.
  - destruct (evict_wf range_order fuel now (set_maxBytes max c))
      as (c' & Hrun & Hwf' & Hb & Hlen & Hm & _);
      [by apply wf_set_maxBytes|done|].
    exists c'. by split_and!.
  - eexists. split; [reflexivity|].
    split_and!; [by apply wf_set_maxBytes| |done..].
    unfold within_budget. simpl. apply Z.ltb_ge in Hmax. lia.
Qed.

(** Any call on a well-formed cache returns a well-formed cache, given
    one unit of fuel per list element and one for the entry it may add. *)

Lemma run_call_wf fuel op c :
  wf c → (length (lru c) < fuel)%nat →
  ∃ c', run_call range_order fuel op c = Ok c'
    ∧ wf c'
    ∧ (length (lru c') ≤ S (length (lru c)))%nat.
Proof.
  intros Hwf Hfuel. destruct op; simpl.
  - destruct (Get_wf k now c Hwf) as (r & c' & -> & Hwf' & Hlen & _).
    simpl. exists c'. split_and!; [done|done|lia].
  - destruct (SetWithExpiration_wf fuel k v 0 0 now_evict c Hwf Hfuel)
      as (c' & Hrun & Hwf' & Hlen & _).
    by exists c'.
  - destruct (SetWithExpiration_wf fuel k v expiration now_set now_evict c
                Hwf Hfuel) as (c' & Hrun & Hwf' & Hlen & _).
    by exists c'.
  - destruct (Delete_wf k c Hwf) as (b & c' & -> & Hwf' & Hlen & _).
    simpl. exists c'. split_and!; [done|done|lia].
  - destruct (Clear_wf c Hwf) as (c' & Hrun & Hwf' & Hlru & _).
    exists c'. split_and!; [done|done|]. rewrite Hlru. simpl. lia.
  - destruct (GetWithExpiration_wf k now c Hwf)
      as (r & c' & -> & Hwf' & Hlen & _).
    simpl. exists c'. split_and!; [done|done|lia].
  - destruct (UpdateExpiration_wf k expiration now c Hwf) as (Hwf' & Hlru & _).
    eexists. split; [reflexivity|]. split; [done|]. rewrite Hlru. lia.
  - destruct (SetMaxBytes_wf fuel max now c Hwf) as (c' & Hrun & Hwf' & _ & Hlen & _);
      [lia|].
    exists c'. split_and!; [done|done|lia].
  - destruct (evict_wf range_order fuel now c Hwf)
      as (c' & Hrun & Hwf' & _ & Hlen & _); [lia|].
    exists c'. split_and!; [done|done|lia].
Qed.

Lemma run_calls_wf fuel ops c :
  wf c → (length (lru c) + length ops ≤ fuel)%nat →
  ∃ c', run_calls range_order fuel ops c = Ok c'
    ∧ wf c'
    ∧ (length (lru c') ≤ length (lru c) + length ops)%nat.
Proof.
  revert c. induction ops as [|op ops IH]; intros c Hwf Hfuel; simpl.
  { exists c. split_and!; [done|done|lia]. }
  simpl in Hfuel.
  destruct (run_call_wf fuel op c Hwf) as (c1 & -> & Hwf1 & Hlen1); [lia|].
  simpl. destruct (IH c1 Hwf1) as (c' & Hrun & Hwf' & Hlen'); [lia|].
  exists c'. split_and!; [done|done|lia].
Qed.

End EngineInvariant.

(** ** The scenarios' caches *)

Lemma go_range_ok : range_ok go_range.
Proof. intros A m. reflexivity. Qed.

Lemma two_keys_reached :
  run_calls go_range 2 two_keys_calls (newLRUCache unlimited) = Ok two_keys.
Proof. vm_compute. reflexivity. Qed.

Lemma two_keys_wf : wf two_keys.
Proof.
  destruct (run_calls_wf go_range go_range_ok 2 two_keys_calls
              (newLRUCache unlimited) (wf_newLRUCache _))
    as (c & Hrun & Hwf & _); [simpl; lia|].
  rewrite two_keys_reached in Hrun. by simplify_eq.
Qed.

(** ** Delete *)

(** C7. Deleting a key that is not in the key index returns false and
    leaves the cache as it was: [usedBytes], the list, the key index and
    the expiration index are unchanged and the eviction callback is not
    called. *)

Theorem Delete_absent_noop :
  ∀ (c : lruCache) (k : string),
    items c !! k = None →
    Delete k c = Ok (false, c).
Proof. intros c k Hk. unfold Delete. by rewrite Hk. Qed.

Lemma Delete_absent_noop_witness :
  items two_keys !! "b" = None
  ∧ Delete "b" two_keys = Ok (false, two_keys).
Proof.
  split; [reflexivity|].
  apply (Delete_absent_noop two_keys "b"). reflexivity.
Defined.

(** ** Reads of an expired key *)

(** C9. [GetWithExpiration] on a key whose expiry instant is past
    returns [(nil, 0, false)] and leaves the cache untouched: the entry
    stays in the list, the key index and the expiration index, [Len] and
    [usedBytes] keep their values, no callback runs and no removal is
    scheduled.  [Get] at the same instant hands back the goroutine
    [go c.Delete(key)]. *)

Theorem GetWithExpiration_expired_keeps_entry :
  ∀ (c : lruCache) (k : string) (e : nat) (expire now : Z),
    items c !! k = Some e →
    expires c !! k = Some expire →
    expire < now →
    GetWithExpiration k now c = Ok (None, 0, false, c)
    ∧ Get k now c = Ok (None, false, [GoDelete k], c).
Proof.
  intros c k e expire now Hk Hexp Hnow.
  assert ((now >? expire) = true) as Hgt by (apply Z.gtb_lt; lia).
  unfold GetWithExpiration, Get. by rewrite Hk, Hexp, Hgt.
Qed.

Lemma GetWithExpiration_expired_keeps_entry_witness :
  items two_keys !! "x" = Some 1%nat
  ∧ expires two_keys !! "x" = Some (50 * Millisecond)
  ∧ 50 * Millisecond < 60 * Millisecond
  ∧ GetWithExpiration "x" (60 * Millisecond) two_keys
    = Ok (None, 0, false, two_keys)
  ∧ Get "x" (60 * Millisecond) two_keys
    = Ok (None, false, [GoDelete "x"], two_keys).
Proof.
  split; [reflexivity|]. split; [reflexivity|]. split; [reflexivity|].
  apply (GetWithExpiration_expired_keeps_entry two_keys "x" 1%nat
           (50 * Millisecond) (60 * Millisecond)); reflexivity.
Defined.

(** The entry left behind goes with the next eviction pass. *)

Lemma removeElement_shrinks elem c c' :
  removeElement elem c = Ok c' →
  items c' ⊆ items c ∧ expires c' ⊆ expires c.
Proof.
  unfold removeElement. destruct elem as [e|]; [|done].
  destruct (elements c !! e) as [en|]; [|done].
  intros [= <-]. simpl. split; apply delete_subseteq.
Qed.

Lemma expire_loop_shrinks ks now c c' :
  expire_loop ks now c = Ok c' → items c' ⊆ items c.
Proof.
  revert c. induction ks as [|k ks IH]; intros c; simpl.
  { by intros [= <-]. }
  destruct (expires c !! k) as [t|]; [|apply IH].
  destruct (now >? t); [|apply IH].
  destruct (removeElement (items c !! k) c) as [c1| |] eqn:Hrm; [|done..].
  simpl. intros Hrun%IH. apply removeElement_shrinks in Hrm as [? _].
  by etrans.
Qed.

Lemma capacity_loop_shrinks fuel c c' :
  capacity_loop fuel c = Ok c' → items c' ⊆ items c.
Proof.
  revert c. induction fuel as [|fuel IH]; intros c;
    rewrite capacity_loop_unfold;
    destruct ((0 <? maxBytes c) && (maxBytes c <? usedBytes c));
    try done; try by intros [= <-].
  destruct (list_Front (lru c)) as [e|]; [|apply IH].
  destruct (removeElement (Some e) c) as [c1| |] eqn:Hrm; [|done..].
  simpl. intros Hrun%IH. apply removeElement_shrinks in Hrm as [? _].
  by etrans.
Qed.

Lemma expire_loop_removes ks now c k t :
  wf c →
  items c !! k = None ∨ (expires c !! k = Some t ∧ t < now ∧ k ∈ ks) →
  ∃ c', expire_loop ks now c = Ok c' ∧ wf c' ∧ items c' !! k = None.
Proof.
  revert c. induction ks as [|k0 ks IH]; intros c Hwf Hk.
  { destruct Hk as [Hk|(_ & _ & Hin)]; [|by apply elem_of_nil in Hin].
    by exists c. }
  destruct Hk as [Hk|(Hk & Ht & Hin)].
  { destruct (expire_loop_wf (k0 :: ks) now c Hwf) as (c' & Hrun & Hwf' & _).
    exists c'. split_and!; try done.
    eapply lookup_weaken_None; [done|by eapply expire_loop_shrinks]. }
  simpl. destruct (expires c !! k0) as [t0|] eqn:Hk0.
  - destruct (now >? t0) eqn:Hexp.
    + destruct (wf_expires c Hwf k0) as [e He]; [by rewrite Hk0|].
      destruct (wf_items_elem c k0 e Hwf He) as [Hine [v Hv]].
      destruct (removeElement_wf c e Hwf Hine)
        as (c1 & en & Hrm & Hen & Hwf1 & _ & Hit & Hex & _).
      rewrite He, Hrm. simpl. apply IH; [done|].
      assert (key en = k0) as Hkey by (rewrite Hv in Hen; by simplify_eq).
      rewrite Hit, Hex, Hkey.
      destruct (decide (k = k0)) as [->|Hne].
      * left. apply lookup_delete_eq.
      * right. rewrite lookup_delete_ne by done. split_and!; try done.
        apply elem_of_cons in Hin as [?|?]; done.
    + apply IH; [done|]. right. split_and!; try done.
      apply elem_of_cons in Hin as [->|?]; [|done].
      rewrite Hk in Hk0. simplify_eq.
      rewrite Z.gtb_ltb in Hexp. apply Z.ltb_ge in Hexp. lia.
  - apply IH; [done|]. right. split_and!; try done.
    apply elem_of_cons in Hin as [->|?]; [congruence|done].
Qed.

Lemma evict_removes_expired range_order fuel now c k t :
  range_ok range_order →
  wf c → (length (lru c) ≤ fuel)%nat →
  expires c !! k = Some t → t < now →
  ∃ c', evict range_order fuel now c = Ok c' ∧ wf c' ∧ items c' !! k = None.
Proof.
  intros Hrange Hwf Hfuel Hk Ht. unfold evict.
  destruct (expire_loop_removes ((range_order Z (expires c)).*1) now c k t Hwf)
    as (c1 & Hrun1 & Hwf1 & Hgone).
  { right. split_and!; try done.
    apply list_elem_of_fmap. exists (k, t). split; [done|].
    rewrite (Hrange Z (expires c)). by apply elem_of_map_to_list. }
  rewrite Hrun1. simpl.
  destruct (expire_loop_wf ((range_order Z (expires c)).*1) now c Hwf)
    as (c1' & Hrun1' & _ & Hlen1 & _).
  rewrite Hrun1 in Hrun1'. simplify_eq.
  destruct (capacity_loop_wf fuel c1' Hwf1) as (c' & Hrun & Hwf' & _); [lia|].
  exists c'. split_and!; try done.
  eapply lookup_weaken_None; [done|by eapply capacity_loop_shrinks].
Qed.

(** ** UpdateExpiration *)

(** C10. With a duration that is not positive, [UpdateExpiration] on a
    present key returns true and removes the key's entry from the
    expiration index, so that the key no longer expires; the list order,
    the entries and their values, the key index, [usedBytes], the other
    expirations and the callback log stay as they were.  On an absent
    key it returns false and changes nothing. *)

Theorem UpdateExpiration_nonpositive :
  ∀ (c : lruCache) (k : string) (d now : Z),
    d <= 0 →
    (is_Some (items c !! k) →
       ∃ c', UpdateExpiration k d now c = (true, c')
         ∧ expires c' = delete k (expires c)
         ∧ expires c' !! k = None
         ∧ lru c' = lru c
         ∧ elements c' = elements c
         ∧ items c' = items c
         ∧ usedBytes c' = usedBytes c
         ∧ evicted c' = evicted c)
    ∧ (items c !! k = None → UpdateExpiration k d now c = (false, c)).
Proof.
  intros c k d now Hd.
  assert ((0 <? d) = false) as Hpos by (apply Z.ltb_ge; lia).
  unfold UpdateExpiration. split.
  - intros [e ->]. rewrite Hpos. eexists. split; [reflexivity|].
    simpl. split_and!; try done. apply lookup_delete_eq.
  - by intros ->.
Qed.

Lemma UpdateExpiration_nonpositive_witness :
  0 <= 0
  ∧ (is_Some (items two_keys !! "x") →
       ∃ c', UpdateExpiration "x" 0 7 two_keys = (true, c')
         ∧ expires c' = delete "x" (expires two_keys)
         ∧ expires c' !! "x" = None
         ∧ lru c' = lru two_keys
         ∧ elements c' = elements two_keys
         ∧ items c' = items two_keys
         ∧ usedBytes c' = usedBytes two_keys
         ∧ evicted c' = evicted two_keys)
  ∧ (items two_keys !! "x" = None
     → UpdateExpiration "x" 0 7 two_keys = (false, two_keys)).
Proof.
  split; [lia|].
  apply (UpdateExpiration_nonpositive two_keys "x" 0 7). lia.
Defined.

(** ** Clear *)

(** C6. On every well-formed cache [Clear] returns, and afterwards
    [Len() = 0] and [UsedBytes() = 0] with the three indexes empty.  When
    an eviction callback is configured it has been called exactly once
    for each key that was in the key index before the call, in the order
    of the iteration, with the value stored under that key at that time;
    without a callback nothing is called. *)



(** ** Time to live *)

Lemma expire_loop_none_expired ks now c :
  (∀ k t, expires c !! k = Some t → now <= t) →
  expire_loop ks now c = Ok c.
Proof.
  intros Hlive. induction ks as [|k ks IH]; simpl; [done|].
  destruct (expires c !! k) as [t|] eqn:Hk; [|done].
  apply Hlive in Hk.
  assert ((now >? t) = false) as ->
    by (rewrite Z.gtb_ltb; apply Z.ltb_ge; lia).
  done.
Qed.

Lemma capacity_loop_within fuel c :
  (maxBytes c <= 0 ∨ usedBytes c <= maxBytes c) →
  capacity_loop fuel c = Ok c.
Proof.
  intros H. rewrite capacity_loop_unfold.
  destruct ((0 <? maxBytes c) && (maxBytes c <? usedBytes c)) eqn:Hcond;
    [|done].
  apply andb_true_iff in Hcond as [H1%Z.ltb_lt H2%Z.ltb_lt]. lia.
Qed.

(** The cache after the first write of [k] with a positive duration. *)

Lemma SetWithExpiration_first range_order fuel opts k v d now_set now_evict :
  0 < d →
  now_evict <= now_set + d →
  (MaxBytes opts <= 0
   ∨ wrap64 (Z.of_nat (String.length k) + Value_Len v) <= MaxBytes opts) →
  SetWithExpiration range_order fuel k (Some v) d now_set now_evict
    (newLRUCache opts)
  = Ok {| lru := [0%nat];
          elements := {[ 0%nat := mkEntry k v ]};
          items := {[ k := 0%nat ]};
          expires := {[ k := now_set + d ]};
          maxBytes := MaxBytes opts;
          usedBytes := wrap64 (Z.of_nat (String.length k) + Value_Len v);
          onEvicted := OnEvicted opts;
          cleanupInterval := cleanupInterval (newLRUCache opts);
          next_elem := 1%nat;
          evicted := [] |}.
Proof.
  intros Hd Hclock Hroom.
  unfold SetWithExpiration, expires_set. cbv zeta.
  assert ((0 <? d) = true) as -> by (by apply Z.ltb_lt).
  simpl. rewrite lookup_empty.
  rewrite wrap64_add_r, Z.add_0_l.
  unfold evict. rewrite expire_loop_none_expired.
  - simpl. rewrite capacity_loop_within; [done|]. simpl. lia.
  - simpl. intros k' t Hk'. rewrite insert_empty in Hk'.
    apply lookup_singleton_Some in Hk' as [_ <-]. lia.
Qed.

(** C5 as the specification states it fails on the code: in the stated
    scenario the second [Get("x")] returns [(nil, false)] and [Len()] is
    1, not 0, when that call has returned. *)

Lemma ttl_len_after_expired_get :
  ∃ c1,
    SetWithExpiration go_range 1 "x" (Some v4) (50 * Millisecond) 0 0
      (newLRUCache NewOptions) = Ok c1
    ∧ Get "x" 0 c1 = Ok (Some v4, true, [], c1)
    ∧ Get "x" (60 * Millisecond) c1 = Ok (None, false, [GoDelete "x"], c1)
    ∧ Len c1 = 1
    ∧ Len c1 ≠ 0.
Proof.
  eexists. split; [vm_compute; reflexivity|].
  split; [vm_compute; reflexivity|]. split; [vm_compute; reflexivity|].
  split; [reflexivity|]. discriminate.
Qed.

(** ** Recency *)

(** A hit of [Get] leaves the element at [Front()], the end from which
    the capacity pass takes its next victim. *)

Lemma Get_hit_at_front k now c v gs c' e :
  wf c → items c !! k = Some e →
  Get k now c = Ok (Some v, true, gs, c') →
  list_Front (lru c') = Some e.
Proof.
  intros Hwf Hk. unfold Get. rewrite Hk.
  destruct (match expires c !! k with
            | Some expire => now >? expire | None => false end); [done|].
  destruct (wf_items_elem c k e Hwf Hk) as [Hin [v0 Hv0]]. rewrite Hv0.
  intros [= <- <- <-]. simpl. unfold list_MoveToFront.
  by rewrite decide_True.
Qed.

(** C1, evaluated on the code.  With A, B, C inserted in this order
    under an unlimited budget, then [Get("A")], then [SetMaxBytes(10)]
    with 15 bytes in use, exactly one entry is evicted and it is A: B and
    C stay.  [Get] moved A with [MoveToFront], to the end [evict] removes
    from, where the other touches use [MoveToBack]. *)

Theorem recency_scenario_evicts_A :
  ∃ c, recency_scenario = Ok c
    ∧ evicted c = [("A", v4)]
    ∧ items c !! "A" = None
    ∧ items c !! "B" = Some 1%nat
    ∧ items c !! "C" = Some 2%nat
    ∧ lru c = [1%nat; 2%nat]
    ∧ usedBytes c = 10.
Proof. eexists. split; [vm_compute; reflexivity|]. by split_and!. Qed.

(** ** The byte budget *)

(** C2, evaluated on the code.  With [maxBytes = 10], a 4-byte value
    stored under a and then overwritten by a 20-byte one, the second
    [Set] returns with [usedBytes = 21]: the update branch returns before
    [evict] is reached. *)

Theorem update_scenario_exceeds_budget :
  ∃ c, update_scenario = Ok c
    ∧ maxBytes c = 10
    ∧ usedBytes c = 21
    ∧ ¬ within_budget c.
Proof.
  eexists. split; [vm_compute; reflexivity|]. split_and!; try done.
  unfold within_budget. simpl. lia.
Qed.

(** ** The capacity pass on an empty list *)

Lemma capacity_loop_spins c :
  lru c = [] → 0 < maxBytes c → maxBytes c < usedBytes c →
  ∀ fuel, capacity_loop fuel c = OutOfFuel.
Proof.
  intros Hnil Hpos Hover fuel.
  assert ((0 <? maxBytes c) && (maxBytes c <? usedBytes c) = true) as Hcond.
  { apply andb_true_iff. split; by apply Z.ltb_lt. }
  induction fuel as [|fuel IH]; rewrite capacity_loop_unfold, Hcond; [done|].
  by rewrite Hnil.
Qed.

(** C3, evaluated on the code.  On a cache whose list is empty while
    [usedBytes = 10], lowering the ceiling to 5 never returns: whatever
    the number of rounds, the capacity loop is still running, since with
    [Front() == nil] its body changes nothing. *)

Theorem capacity_pass_spins_on_empty_list :
  ∀ fuel : nat,
    capacity_loop fuel (set_maxBytes 5 stuck_cache) = OutOfFuel
    ∧ SetMaxBytes go_range fuel 5 0 stuck_cache = OutOfFuel.
Proof.
  intros fuel.
  assert (capacity_loop fuel (set_maxBytes 5 stuck_cache) = OutOfFuel) as H.
  { apply capacity_loop_spins; simpl; (done || lia). }
  split; [done|].
  unfold SetMaxBytes, evict. cbv zeta.
  change (0 <? 5) with true. cbv iota.
  change (expire_loop _ 0 (set_maxBytes 5 stuck_cache))
    with (Ok (set_maxBytes 5 stuck_cache)).
  simpl. exact H.
Qed.

(** ** The factory *)

(** C8, evaluated on the code.  For every configuration [NewStore] with
    the LRU tag returns nil, as it does for every other tag. *)

Theorem NewStore_returns_nil :
  ∀ (cacheType : string) (opts : Options),
    NewStore LRU opts = None ∧ NewStore cacheType opts = None.
Proof.
  intros cacheType opts. split; [reflexivity|].
  unfold NewStore. by repeat case_decide.
Qed.

(** [newLRUCache] itself always builds an empty engine with a positive
    cleanup interval. *)

Lemma newLRUCache_total opts :
  wf (newLRUCache opts)
  ∧ Len (newLRUCache opts) = 0
  ∧ UsedBytes (newLRUCache opts) = 0
  ∧ 0 < cleanupInterval (newLRUCache opts).
Proof.
  split; [apply wf_newLRUCache|]. split; [done|]. split; [done|].
  simpl. destruct (CleanupInterval opts <=? 0) eqn:H; [done|].
  apply Z.leb_gt in H. lia.
Qed.

(** * Further properties of the engine *)

(** ** Loops keep what every removal keeps *)

Lemma removeElement_eq c e en :
  elements c !! e = Some en →
  removeElement (Some e) c
  = Ok {| lru := list_Remove e (lru c);
          elements := elements c;
          items := delete (key en) (items c);
          expires := delete (key en) (expires c);
          maxBytes := maxBytes c;
          usedBytes := wrap64 (usedBytes c - wrap64 (entry_size en));
          onEvicted := onEvicted c;
          cleanupInterval := cleanupInterval c;
          next_elem := next_elem c;
          evicted :=
            if onEvicted c then evicted c ++ [(key en, value en)]
            else evicted c |}.
Proof. intros Hen. unfold removeElement. by rewrite Hen. Qed.

Lemma expire_loop_inv (P : lruCache → Prop) now :
  (∀ c k0 t0 e0 c',
     wf c → P c → expires c !! k0 = Some t0 → t0 < now →
     items c !! k0 = Some e0 → removeElement (Some e0) c = Ok c' → P c') →
  ∀ ks c c', wf c → P c → expire_loop ks now c = Ok c' → P c'.
Proof.
  intros Hstep ks. induction ks as [|k ks IH]; intros c c' Hwf HP; simpl.
  { by intros [= <-]. }
  destruct (expires c !! k) as [t|] eqn:Hk; [|by apply IH].
  destruct (now >? t) eqn:Hexp; [|by apply IH].
  destruct (wf_expires c Hwf k) as [e He]; [by rewrite Hk|].
  destruct (wf_items_elem c k e Hwf He) as [Hin _].
  destruct (removeElement_wf c e Hwf Hin) as (c1 & en & Hrm & _ & Hwf1 & _).
  rewrite He, Hrm. simpl. apply IH; [done|].
  apply (Hstep c k t e c1); try done. by apply Z.gtb_lt in Hexp; lia.
Qed.

Lemma capacity_loop_inv (P : lruCache → Prop) :
  (∀ c e0 c',
     wf c → P c → 0 < maxBytes c → maxBytes c < usedBytes c →
     list_Front (lru c) = Some e0 → removeElement (Some e0) c = Ok c' →
     P c') →
  ∀ fuel c c', wf c → P c → capacity_loop fuel c = Ok c' → P c'.
Proof.
  intros Hstep fuel. induction fuel as [|fuel IH]; intros c c' Hwf HP;
    rewrite capacity_loop_unfold;
    destruct ((0 <? maxBytes c) && (maxBytes c <? usedBytes c)) eqn:Hcond;
    try done; try by intros [= <-].
  apply andb_true_iff in Hcond as [H1%Z.ltb_lt H2%Z.ltb_lt].
  destruct (list_Front (lru c)) as [e|] eqn:Hfront; [|by apply IH].
  assert (e ∈ lru c) as Hin.
  { unfold list_Front in Hfront. by apply head_Some_elem_of. }
  destruct (removeElement_wf c e Hwf Hin) as (c1 & en & Hrm & _ & Hwf1 & _).
  rewrite Hrm. simpl. apply IH; [done|]. by apply (Hstep c e c1).
Qed.

(** ** The key index and the list *)

Lemma wf_len_items c : wf c → length (lru c) = size (items c).
Proof.
  intros Hwf.
  rewrite <- length_map_to_list, <- (length_fmap snd).
  apply Permutation_length, NoDup_Permutation.
  - apply Hwf.
  - apply NoDup_fmap_2_strong; [|apply NoDup_map_to_list].
    intros [k1 e1] [k2 e2] H1%elem_of_map_to_list H2%elem_of_map_to_list Heq.
    simpl in Heq. subst e2.
    apply (wf_items c Hwf) in H1 as [_ H1], H2 as [_ H2]. congruence.
  - intros e. rewrite list_elem_of_fmap. split.
    + intros He. destruct (wf_elements c Hwf e He) as [en Hen].
      exists (key en, e). split; [done|]. apply elem_of_map_to_list.
      apply (wf_items c Hwf). by rewrite Hen.
    + intros ([k e'] & -> & Hk%elem_of_map_to_list). simpl.
      by apply (wf_items c Hwf) in Hk as [? _].
Qed.

Lemma evict_inv (P : lruCache → Prop) range_order fuel now :
  (∀ c e c',
     wf c → P c → e ∈ lru c → removeElement (Some e) c = Ok c' → P c') →
  ∀ c c', wf c → P c → evict range_order fuel now c = Ok c' → P c'.
Proof.
  intros Hstep c c' Hwf HP. unfold evict.
  destruct (expire_loop_wf ((range_order Z (expires c)).*1) now c Hwf)
    as (c1 & Hrun1 & Hwf1 & _).
  rewrite Hrun1. simpl.
  apply (capacity_loop_inv P); [|done|].
  - intros c0 e0 c0' Hwf0 HP0 _ _ Hfront. apply Hstep; try done.
    unfold list_Front in Hfront. by apply head_Some_elem_of.
  - apply (expire_loop_inv P now) with (ks := (range_order Z (expires c)).*1)
                                       (c := c); try done.
    intros c0 k0 t0 e0 c0' Hwf0 HP0 _ _ Hk0. apply Hstep; try done.
    by destruct (wf_items_elem c0 k0 e0 Hwf0 Hk0).
Qed.

(** The two branches of [SetWithExpiration] on a value, written out. *)

Lemma SetWithExpiration_update_eq range_order fuel k val expiration
    now_set now_evict c e en :
  items c !! k = Some e → elements c !! e = Some en →
  SetWithExpiration range_order fuel k (Some val) expiration now_set
    now_evict c
  = Ok {| lru := list_MoveToBack e (lru c);
          elements := <[e := mkEntry (key en) val]> (elements c);
          items := items c;
          expires := expires (expires_set k expiration now_set c);
          maxBytes := maxBytes c;
          usedBytes :=
            wrap64 (usedBytes c
                    + wrap64 (Value_Len val - Value_Len (value en)));
          onEvicted := onEvicted c;
          cleanupInterval := cleanupInterval c;
          next_elem := next_elem c;
          evicted := evicted c |}.
Proof.
  intros Hk Hen. unfold SetWithExpiration. cbv zeta.
  destruct (expires_set_frame k expiration now_set c)
    as (Hl & Hel & Hit & Hm & Hu & Hcb & Hn & Hev).
  rewrite Hit, Hk, Hel, Hen, Hl, Hm, Hu, Hcb, Hn, Hev.
  unfold expires_set. by destruct (0 <? expiration).
Qed.

Lemma SetWithExpiration_insert_eq range_order fuel k val expiration
    now_set now_evict c :
  items c !! k = None →
  SetWithExpiration range_order fuel k (Some val) expiration now_set
    now_evict c
  = evict range_order fuel now_evict
      {| lru := list_PushBack (next_elem c) (lru c);
         elements := <[next_elem c := mkEntry k val]> (elements c);
         items := <[k := next_elem c]> (items c);
         expires := expires (expires_set k expiration now_set c);
         maxBytes := maxBytes c;
         usedBytes :=
           wrap64 (usedBytes c
                   + wrap64 (Z.of_nat (String.length k) + Value_Len val));
         onEvicted := onEvicted c;
         cleanupInterval := cleanupInterval c;
         next_elem := S (next_elem c);
         evicted := evicted c |}.
Proof.
  intros Hk. unfold SetWithExpiration. cbv zeta.
  destruct (expires_set_frame k expiration now_set c)
    as (Hl & Hel & Hit & Hm & Hu & Hcb & Hn & Hev).
  rewrite Hit, Hk, Hel, Hl, Hm, Hu, Hcb, Hn, Hev.
  unfold expires_set. by destruct (0 <? expiration).
Qed.

(** The cache between the append and [evict] is well formed. *)

Lemma wf_pushed k val expiration now_set c :
  wf c → items c !! k = None →
  wf {| lru := list_PushBack (next_elem c) (lru c);
        elements := <[next_elem c := mkEntry k val]> (elements c);
        items := <[k := next_elem c]> (items c);
        expires := expires (expires_set k expiration now_set c);
        maxBytes := maxBytes c;
        usedBytes :=
          wrap64 (usedBytes c
                  + wrap64 (Z.of_nat (String.length k) + Value_Len val));
        onEvicted := onEvicted c;
        cleanupInterval := cleanupInterval c;
        next_elem := S (next_elem c);
        evicted := evicted c |}.
Proof.
  intros Hwf Hk.
  assert (Hfresh : next_elem c ∉ lru c).
  { intros Hin%(wf_alloc c Hwf). lia. }
  split; simpl.
  - apply NoDup_app. split_and!; [apply Hwf| |apply NoDup_singleton].
    intros x Hx ->%list_elem_of_singleton. done.
  - intros k' e'. unfold list_PushBack.
    rewrite elem_of_app, list_elem_of_singleton.
    destruct (decide (e' = next_elem c)) as [->|Hne].
    + rewrite lookup_insert_eq. simpl.
      destruct (decide (k' = k)) as [->|Hnk].
      * rewrite lookup_insert_eq. tauto.
      * rewrite lookup_insert_ne by done. split.
        -- intros [Hin _]%(wf_items c Hwf). done.
        -- intros [_ ?]. congruence.
    + rewrite (lookup_insert_ne (elements c)) by done.
      destruct (decide (k' = k)) as [->|Hnk].
      * rewrite lookup_insert_eq. split; [congruence|].
        intros [[Hin|?] Hkey]; [|done].
        assert (items c !! k = Some e') by (by apply (wf_items c Hwf)).
        congruence.
      * rewrite lookup_insert_ne by done. rewrite (wf_items c Hwf).
        tauto.
  - intros e' [He' | ->%list_elem_of_singleton]%elem_of_app.
    + apply lookup_insert_is_Some'. right. by apply Hwf.
    + rewrite lookup_insert_eq. eauto.
  - intros e' [He'%(wf_alloc c Hwf) | ->%list_elem_of_singleton]%elem_of_app;
      lia.
  - intros k' Hk'. apply expires_set_live in Hk' as [->|?]; [| |done].
    + rewrite lookup_insert_eq. eauto.
    + apply lookup_insert_is_Some'. by right.
  - unfold accounted. simpl. unfold list_PushBack.
    rewrite sum_sizes_app, sum_sizes_insert_notin by done. simpl.
    rewrite lookup_insert_eq. simpl.
    rewrite (wf_used c Hwf), wrap64_add_r, wrap64_add_l.
    unfold accounted, entry_size. simpl. f_equal. lia.
Qed.

(** ** Every entry that leaves is reported once *)






(** X2. Starting from a fresh engine, after any sequence of calls the
    list and the key index describe the same entries: [Len()] is the
    number of keys, list elements are pairwise distinct, every key points
    to a list element whose entry carries that key, every list element is
    the one its key points to, and every key with an expiry is a live
    key. *)

Theorem indexes_agree :
  ∀ (range_order : ∀ A : Type, gmap string A → list (string * A)),
    range_ok range_order →
    ∀ (opts : Options) (ops : list call) (fuel : nat),
      (length ops ≤ fuel)%nat →
      ∃ c, run_calls range_order fuel ops (newLRUCache opts) = Ok c
        ∧ Len c = Z.of_nat (size (items c))
        ∧ NoDup (lru c)
        ∧ (∀ k e, items c !! k = Some e →
             e ∈ lru c ∧ ∃ v, elements c !! e = Some (mkEntry k v))
        ∧ (∀ e, e ∈ lru c →
             ∃ en, elements c !! e = Some en ∧ items c !! key en = Some e)
        ∧ dom (expires c) ⊆ dom (items c).
Proof.
  intros range_order Hrange opts ops fuel Hfuel.
  destruct (run_calls_wf range_order Hrange fuel ops (newLRUCache opts)
              (wf_newLRUCache opts)) as (c & Hrun & Hwf & _); [simpl; lia|].
  exists c. split; [done|]. split_and!.
  - unfold Len. f_equal. by apply wf_len_items.
  - apply Hwf.
  - intros k e. by apply wf_items_elem.
  - intros e He. destruct (wf_elements c Hwf e He) as [en Hen].
    exists en. split; [done|]. apply (wf_items c Hwf). by rewrite Hen.
  - intros k Hk%elem_of_dom. apply elem_of_dom. by apply Hwf.
Qed.

Lemma indexes_agree_witness :
  range_ok go_range
  ∧ (length two_keys_calls ≤ 2)%nat
  ∧ ∃ c, run_calls go_range 2 two_keys_calls (newLRUCache unlimited) = Ok c
      ∧ Len c = Z.of_nat (size (items c))
      ∧ NoDup (lru c)
      ∧ (∀ k e, items c !! k = Some e →
           e ∈ lru c ∧ ∃ v, elements c !! e = Some (mkEntry k v))
      ∧ (∀ e, e ∈ lru c →
           ∃ en, elements c !! e = Some en ∧ items c !! key en = Some e)
      ∧ dom (expires c) ⊆ dom (items c).
Proof.
  split; [exact go_range_ok|]. split; [simpl; lia|].
  apply (indexes_agree go_range go_range_ok unlimited two_keys_calls 2).
  simpl; lia.
Defined.

(** ** The eviction pass *)

Lemma evict_frame range_order fuel now c c' :
  wf c → evict range_order fuel now c = Ok c' →
  items c' ⊆ items c ∧ expires c' ⊆ expires c ∧ elements c' = elements c
  ∧ maxBytes c' = maxBytes c.
Proof.
  intros Hwf.
  apply (evict_inv (λ c0, items c0 ⊆ items c ∧ expires c0 ⊆ expires c
                          ∧ elements c0 = elements c
                          ∧ maxBytes c0 = maxBytes c)); [|done..].
  intros c0 e c0' Hwf0 (Hi & He & Hel & Hm) Hin Hrm.
  destruct (removeElement_shrinks _ _ _ Hrm) as [Hi' He'].
  destruct (wf_elements c0 Hwf0 e Hin) as [en Hen].
  rewrite (removeElement_eq c0 e en Hen) in Hrm. simplify_eq. simpl in *.
  split_and!; try done; by etrans.
Qed.

Lemma evict_post range_order fuel now c :
  range_ok range_order → wf c → (length (lru c) ≤ fuel)%nat →
  ∃ c', evict range_order fuel now c = Ok c'
    ∧ wf c'
    ∧ within_budget c'
    ∧ (∀ k t, expires c' !! k = Some t → now <= t)
    ∧ items c' ⊆ items c ∧ expires c' ⊆ expires c
    ∧ elements c' = elements c.
Proof.
  intros Hrange Hwf Hfuel.
  destruct (evict_wf range_order fuel now c Hwf Hfuel)
    as (c' & Hrun & Hwf' & Hb & _).
  destruct (evict_frame range_order fuel now c c' Hwf Hrun)
    as (Hi & He & Hel & _).
  exists c'. split_and!; try done.
  intros k t Hk. destruct (decide (now <= t)) as [|Hlt]; [done|].
  destruct (evict_removes_expired range_order fuel now c k t Hrange Hwf Hfuel)
    as (c'' & Hrun' & _ & Hgone); [by eapply lookup_weaken|lia|].
  rewrite Hrun in Hrun'. simplify_eq.
  destruct (wf_expires c'' Hwf' k) as [e He']; [by rewrite Hk|]. congruence.
Qed.

(** X4. A second firing of the ticker that reads the same or an earlier
    instant changes nothing: the eviction pass is idempotent. *)

Theorem cleanupTick_idempotent :
  ∀ (range_order : ∀ A : Type, gmap string A → list (string * A)),
    range_ok range_order →
    ∀ (fuel fuel' : nat) (now now' : Z) (c : lruCache),
      wf c → (length (lru c) ≤ fuel)%nat → now' <= now →
      ∃ c', cleanupTick range_order fuel now c = Ok c'
        ∧ cleanupTick range_order fuel' now' c' = Ok c'.
Proof.
  intros range_order Hrange fuel fuel' now now' c Hwf Hfuel Hnow.
  unfold cleanupTick.
  destruct (evict_post range_order fuel now c Hrange Hwf Hfuel)
    as (c' & Hrun & _ & Hb & Hexp & _).
  exists c'. split; [done|]. unfold evict.
  rewrite expire_loop_none_expired.
  - simpl. apply capacity_loop_within. unfold within_budget in Hb. lia.
  - intros k t Hk. apply Hexp in Hk. lia.
Qed.

Lemma cleanupTick_idempotent_witness :
  range_ok go_range
  ∧ wf two_keys
  ∧ (length (lru two_keys) ≤ 2)%nat
  ∧ 60 * Millisecond <= 60 * Millisecond
  ∧ ∃ c', cleanupTick go_range 2 (60 * Millisecond) two_keys = Ok c'
      ∧ cleanupTick go_range 0 (60 * Millisecond) c' = Ok c'.
Proof.
  split; [exact go_range_ok|]. split; [exact two_keys_wf|].
  split; [simpl; lia|]. split; [lia|].
  apply (cleanupTick_idempotent go_range go_range_ok 2 0
           (60 * Millisecond) (60 * Millisecond) two_keys two_keys_wf).
  - simpl; lia.
  - lia.
Defined.

(** X5. The capacity pass on a well-formed cache removes a prefix of the
    list, that is the entries from [Front()] on in list order, and
    nothing else: the callback is called for exactly these entries, in
    that order.  It removes no more than needed: before each removal
    [usedBytes], reduced by the entries already removed, still exceeded
    [maxBytes].  When it returns the cache is within its budget. *)

Theorem capacity_pass_removes_a_prefix :
  ∀ (fuel : nat) (c : lruCache),
    wf c → (length (lru c) ≤ fuel)%nat →
    ∃ (c' : lruCache) (n : nat),
      capacity_loop fuel c = Ok c'
      ∧ lru c' = drop n (lru c)
      ∧ evicted c'
        = (if onEvicted c
           then evicted c ++ victims (elements c) (take n (lru c))
           else evicted c)
      ∧ (∀ m, (m < n)%nat →
           0 < maxBytes c
           ∧ maxBytes c
             < wrap64 (usedBytes c - sum_sizes (elements c) (take m (lru c))))
      ∧ (0 < maxBytes c' → usedBytes c' <= maxBytes c').
Proof.
  intros fuel. induction fuel as [|fuel IH]; intros c Hwf Hfuel.
  - destruct (capacity_loop_wf 0 c Hwf Hfuel) as (c' & Hrun & _ & Hb & _).
    assert (lru c = []) as Hnil by (apply nil_length_inv; lia).
    rewrite capacity_loop_unfold in Hrun.
    destruct ((0 <? maxBytes c) && (maxBytes c <? usedBytes c)); [done|].
    simplify_eq. exists c', 0%nat. split_and!; try done.
    + rewrite capacity_loop_unfold.
      destruct ((0 <? maxBytes c') && (maxBytes c' <? usedBytes c')) eqn:Hc;
        [|done].
      apply andb_true_iff in Hc as [H1%Z.ltb_lt H2%Z.ltb_lt].
      unfold within_budget in Hb. lia.
    + rewrite Hnil. simpl. unfold victims. simpl.
      destruct (onEvicted c'); [by rewrite app_nil_r|done].
    + intros m Hm. lia.
  - rewrite capacity_loop_unfold.
    destruct ((0 <? maxBytes c) && (maxBytes c <? usedBytes c)) eqn:Hcond.
    + apply andb_true_iff in Hcond as [H1%Z.ltb_lt H2%Z.ltb_lt].
      destruct (lru c) as [|e l] eqn:Hlru.
      { rewrite (wf_empty_used c) in H2; [lia|done..]. }
      change (list_Front (e :: l)) with (Some e). cbv beta iota.
      assert (e ∈ lru c) as Hin by (rewrite Hlru; apply elem_of_cons; by left).
      destruct (wf_elements c Hwf e Hin) as [en Hen].
      destruct (removeElement_wf c e Hwf Hin)
        as (c1 & en' & Hrm & _ & Hwf1 & Hl1 & _ & _ & Hm1 & Hcb1 & Hlen1).
      rewrite Hrm. simpl.
      pose proof Hrm as Heq. rewrite (removeElement_eq c e en Hen) in Heq.
      pose proof (wf_nodup c Hwf) as Hnd. rewrite Hlru in Hnd.
      apply NoDup_cons in Hnd as [Hnotin Hnd].
      assert (lru c1 = l) as Hl1'.
      { rewrite Hl1, Hlru, list_Remove_cons_eq. by apply list_Remove_notin. }
      destruct (IH c1 Hwf1) as (c' & n & Hrun & Hdrop & Hlog & Hmin & Hb).
      { rewrite Hlru in Hlen1. simpl in Hlen1, Hfuel. lia. }
      exists c', (S n). split; [done|].
      assert (elements c1 = elements c) as Hel1 by (by simplify_eq).
      assert (usedBytes c1 = wrap64 (usedBytes c - wrap64 (entry_size en)))
        as Hu1 by (by simplify_eq).
      assert (evicted c1 = if onEvicted c
                           then evicted c ++ [(key en, value en)]
                           else evicted c) as Hev1 by (by simplify_eq).
      split_and!.
      * simpl. by rewrite Hdrop, Hl1'.
      * rewrite Hlog, Hcb1, Hev1, Hel1, Hl1'. unfold victims. simpl.
        rewrite Hen. simpl. destruct (onEvicted c); [|done].
        by rewrite <- app_assoc.
      * intros m Hm. split; [done|]. destruct m as [|m]; simpl.
        -- rewrite Z.sub_0_r, wrap64_small; [lia|].
           rewrite (wf_used c Hwf). apply wrap64_range.
        -- destruct (Hmin m) as [_ Hover]; [lia|].
           rewrite Hm1, Hu1, Hel1, Hl1', wrap64_sub_l in Hover.
           replace (usedBytes c - wrap64 (entry_size en)
                    - sum_sizes (elements c) (take m l))
             with (usedBytes c - sum_sizes (elements c) (take m l)
                   - wrap64 (entry_size en)) in Hover by lia.
           rewrite wrap64_sub_r in Hover.
           rewrite Hen. simpl.
           replace (usedBytes c - (entry_size en
                      + sum_sizes (elements c) (take m l)))
             with (usedBytes c - sum_sizes (elements c) (take m l)
                   - entry_size en) by lia.
           done.
      * done.
    + exists c, 0%nat. split_and!; try done.
      * unfold victims. simpl.
        destruct (onEvicted c); [by rewrite app_nil_r|done].
      * intros m Hm. lia.
      * intros Hpos.
        apply andb_false_iff in Hcond as [H%Z.ltb_ge|H%Z.ltb_ge]; lia.
Qed.

Lemma capacity_pass_removes_a_prefix_witness :
  wf (set_maxBytes 10 two_keys)
  ∧ (length (lru (set_maxBytes 10 two_keys)) ≤ 2)%nat
  ∧ ∃ (c' : lruCache) (n : nat),
      capacity_loop 2 (set_maxBytes 10 two_keys) = Ok c'
      ∧ lru c' = drop n (lru (set_maxBytes 10 two_keys))
      ∧ evicted c'
        = (if onEvicted (set_maxBytes 10 two_keys)
           then evicted (set_maxBytes 10 two_keys)
                ++ victims (elements (set_maxBytes 10 two_keys))
                     (take n (lru (set_maxBytes 10 two_keys)))
           else evicted (set_maxBytes 10 two_keys))
      ∧ (∀ m, (m < n)%nat →
           0 < maxBytes (set_maxBytes 10 two_keys)
           ∧ maxBytes (set_maxBytes 10 two_keys)
             < wrap64 (usedBytes (set_maxBytes 10 two_keys)
                       - sum_sizes (elements (set_maxBytes 10 two_keys))
                           (take m (lru (set_maxBytes 10 two_keys)))))
      ∧ (0 < maxBytes c' → usedBytes c' <= maxBytes c').
Proof.
  split; [exact (wf_set_maxBytes two_keys 10 two_keys_wf)|].
  split; [simpl; lia|].
  apply (capacity_pass_removes_a_prefix 2 (set_maxBytes 10 two_keys)
           (wf_set_maxBytes two_keys 10 two_keys_wf)).
  simpl; lia.
Defined.

(** ** Writing and reading back *)

Lemma last_list_Remove e x l :
  last l = Some e → x ≠ e → last (list_Remove x l) = Some e.
Proof.
  intros [l' ->]%last_Some Hne. unfold list_Remove.
  rewrite filter_app, filter_cons_True, filter_nil by congruence.
  apply last_snoc.
Qed.

Lemma head_last_singleton (e : nat) (l : list nat) :
  NoDup l → head l = Some e → last l = Some e → l = [e].
Proof.
  intros Hnd Hhead Hlast. destruct l as [|x l]; [done|].
  simpl in Hhead. simplify_eq. destruct l as [|y l]; [done|].
  apply NoDup_cons in Hnd as [Hnotin _]. exfalso. apply Hnotin.
  change (last (e :: y :: l)) with (last (y :: l)) in Hlast.
  apply last_Some in Hlast as [l' Hl']. rewrite Hl'.
  apply elem_of_app. right. by apply list_elem_of_singleton.
Qed.

Lemma removeElement_kept k e v t1 t2 c e0 c' :
  wf c → kept k e v t1 t2 c → e0 ∈ lru c → e0 ≠ e →
  removeElement (Some e0) c = Ok c' → kept k e v t1 t2 c'.
Proof.
  intros Hwf (Hk & Hv & Hlast & Hexp & Hroom) Hin0 Hne Hrm.
  destruct (wf_elements c Hwf e0 Hin0) as [en0 Hen0].
  rewrite (removeElement_eq c e0 en0 Hen0) in Hrm. simplify_eq.
  assert (key en0 ≠ k) as Hkey.
  { intros <-. apply Hne.
    assert (items c !! key en0 = Some e0) as Hk0
      by (apply (wf_items c Hwf); by rewrite Hen0).
    congruence. }
  split_and!; simpl.
  - by rewrite lookup_delete_ne.
  - done.
  - by apply last_list_Remove.
  - intros t. rewrite lookup_delete_ne by done. apply Hexp.
  - done.
Qed.

Lemma evict_kept range_order fuel k e v now t2 c c' :
  wf c → kept k e v now t2 c →
  evict range_order fuel now c = Ok c' → kept k e v now t2 c'.
Proof.
  intros Hwf Hkept. unfold evict.
  destruct (expire_loop_wf ((range_order Z (expires c)).*1) now c Hwf)
    as (c1 & Hrun1 & Hwf1 & _).
  rewrite Hrun1. simpl.
  apply (capacity_loop_inv (kept k e v now t2)); [|done|].
  - intros c0 e0 c0' Hwf0 Hk0 Hpos Hover Hfront.
    assert (e0 ∈ lru c0) as Hin0
      by (unfold list_Front in Hfront; by apply head_Some_elem_of).
    apply removeElement_kept; try done.
    intros ->. destruct Hk0 as (Hk & Hv & Hlast & _ & Hroom).
    assert (lru c0 = [e]) as Hone
      by (apply head_last_singleton; [apply Hwf0|done..]).
    rewrite (wf_used c0 Hwf0) in Hover. unfold accounted in Hover.
    rewrite Hone in Hover. simpl in Hover. rewrite Hv in Hover.
    simpl in Hover. rewrite Z.add_0_r in Hover. lia.
  - apply (expire_loop_inv (kept k e v now t2) now)
      with (ks := (range_order Z (expires c)).*1) (c := c); try done.
    intros c0 k0 t0 e0 c0' Hwf0 Hk0 Hexp0 Hlt Hit0.
    destruct (wf_items_elem c0 k0 e0 Hwf0 Hit0) as [Hin0 [v0 Hv0]].
    apply removeElement_kept; try done.
    intros ->. destruct Hk0 as (Hk & Hv & _ & Hexp & _).
    rewrite Hv in Hv0. simplify_eq.
    apply Hexp in Hexp0. lia.
Qed.

(** X6. Write, then read.  On a well-formed cache, after
    [SetWithExpiration(k, v, d)] with a non-nil [v], a [Get(k)] returns
    [(v, true)], provided that with [d > 0] neither [evict] nor the [Get]
    reads the clock past the expiry instant and, when [k] is a new key,
    that the budget admits the entry on its own ([maxBytes <= 0] or
    [len(k) + v.Len() <= maxBytes]).  Overwriting a present key needs no
    room. *)

Theorem Set_then_Get :
  ∀ (range_order : ∀ A : Type, gmap string A → list (string * A))
    (fuel : nat) (k : string) (v : Value)
    (d now_set now_evict now_get : Z) (c : lruCache),
    wf c → (length (lru c) < fuel)%nat →
    (0 < d → now_evict <= now_set + d ∧ now_get <= now_set + d) →
    (items c !! k = None →
       maxBytes c <= 0
       ∨ wrap64 (Z.of_nat (String.length k) + Value_Len v) <= maxBytes c) →
    ∃ c' c'',
      SetWithExpiration range_order fuel k (Some v) d now_set now_evict c
        = Ok c'
      ∧ Get k now_get c' = Ok (Some v, true, [], c'').
Proof.
  intros range_order fuel k v d now_set now_evict now_get c
    Hwf Hfuel Hclock Hroom.
  assert (Hexp : ∀ t, expires (expires_set k d now_set c) !! k = Some t →
                      now_evict <= t ∧ now_get <= t).
  { intros t. unfold expires_set. destruct (0 <? d) eqn:Hd; simpl.
    - rewrite lookup_insert_eq. intros [= <-]. apply Hclock.
      by apply Z.ltb_lt.
    - by rewrite lookup_delete_eq. }
  assert (Hget : ∀ e c1,
            items c1 !! k = Some e →
            elements c1 !! e = Some (mkEntry k v) →
            (∀ t, expires c1 !! k = Some t → now_evict <= t ∧ now_get <= t) →
            ∃ c2, Get k now_get c1 = Ok (Some v, true, [], c2)).
  { intros e c1 Hk Hv Hexp1. unfold Get. rewrite Hk.
    destruct (expires c1 !! k) as [t|] eqn:Ht.
    - destruct (Hexp1 t eq_refl) as [_ Hle].
      assert ((now_get >? t) = false) as ->
        by (rewrite Z.gtb_ltb; apply Z.ltb_ge; lia).
      rewrite Hv. by eexists.
    - rewrite Hv. by eexists. }
  destruct (items c !! k) as [e|] eqn:Hk.
  - destruct (wf_items_elem c k e Hwf Hk) as [Hin [old Hold]].
    pose proof (SetWithExpiration_update_eq range_order fuel k v d now_set
                  now_evict c e _ Hk Hold) as Hrun.
    match type of Hrun with
    | _ = Ok ?r => destruct (Hget e r) as [c'' Hc'']
    end; simpl; [done|apply lookup_insert_eq|apply Hexp|].
    by eexists _, c''.
  - pose proof (SetWithExpiration_insert_eq range_order fuel k v d now_set
                  now_evict c Hk) as Heq.
    destruct (SetWithExpiration_insert range_order fuel k v d now_set
                now_evict c Hwf Hk Hfuel) as (c' & Hrun & Hwf' & _).
    pose proof Hrun as Hev. rewrite Heq in Hev.
    apply (evict_kept range_order fuel k (next_elem c) v now_evict now_get)
      in Hev as (Hk' & Hv' & _ & Hexp' & _).
    + destruct (Hget (next_elem c) c' Hk' Hv' Hexp') as [c'' Hc''].
      by exists c', c''.
    + by apply wf_pushed.
    + split_and!; simpl.
      * apply lookup_insert_eq.
      * apply lookup_insert_eq.
      * apply last_snoc.
      * apply Hexp.
      * by apply Hroom.
Qed.

Lemma Set_then_Get_witness :
  wf two_keys
  ∧ (length (lru two_keys) < 3)%nat
  ∧ (0 < 50 * Millisecond →
       0 <= 0 + 50 * Millisecond
       ∧ 10 * Millisecond <= 0 + 50 * Millisecond)
  ∧ (items two_keys !! "b" = None →
       maxBytes two_keys <= 0
       ∨ wrap64 (Z.of_nat (String.length "b") + Value_Len v4)
         <= maxBytes two_keys)
  ∧ ∃ c' c'',
      SetWithExpiration go_range 3 "b" (Some v4) (50 * Millisecond) 0 0
        two_keys = Ok c'
      ∧ Get "b" (10 * Millisecond) c' = Ok (Some v4, true, [], c'').
Proof.
  assert (0 < 50 * Millisecond →
          0 <= 0 + 50 * Millisecond
          ∧ 10 * Millisecond <= 0 + 50 * Millisecond) as Hclock
    by (unfold Millisecond; lia).
  assert (items two_keys !! "b" = None →
          maxBytes two_keys <= 0
          ∨ wrap64 (Z.of_nat (String.length "b") + Value_Len v4)
            <= maxBytes two_keys) as Hroom
    by (intros _; left; simpl; lia).
  split; [exact two_keys_wf|]. split; [simpl; lia|].
  split; [exact Hclock|]. split; [exact Hroom|].
  apply (Set_then_Get go_range 3 "b" v4 (50 * Millisecond) 0 0
           (10 * Millisecond) two_keys two_keys_wf).
  - simpl; lia.
  - exact Hclock.
  - exact Hroom.
Defined.

(** X7. Inserting a key that is not in the cache returns, on a
    well-formed cache, with [usedBytes <= maxBytes] whenever
    [maxBytes > 0]: the new entry is appended and [evict] runs.  The
    ceiling itself is not changed, and at most one entry is gained. *)



(** X8. Overwriting a key that is in the cache replaces its value in
    place and moves its element to the back of the list.  Nothing is
    evicted and no callback runs: the key index and [Len()] are as
    before, and [usedBytes] changes by the difference of the two value
    sizes. *)

Theorem Set_present_key_in_place :
  ∀ (range_order : ∀ A : Type, gmap string A → list (string * A))
    (fuel : nat) (k : string) (v : Value)
    (d now_set now_evict : Z) (c : lruCache) (e : nat),
    wf c → items c !! k = Some e →
    ∃ c' old,
      SetWithExpiration range_order fuel k (Some v) d now_set now_evict c
        = Ok c'
      ∧ elements c !! e = Some (mkEntry k old)
      ∧ elements c' = <[e := mkEntry k v]> (elements c)
      ∧ items c' = items c
      ∧ Len c' = Len c
      ∧ last (lru c') = Some e
      ∧ evicted c' = evicted c
      ∧ usedBytes c'
        = wrap64 (usedBytes c + (Value_Len v - Value_Len old)).
Proof.
  intros range_order fuel k v d now_set now_evict c e Hwf Hk.
  destruct (SetWithExpiration_update range_order fuel k v d now_set
              now_evict c e Hwf Hk)
    as (c' & old & Hrun & Hold & _ & Hlru & Hit & Hel & _ & Hev & Hu).
  destruct (wf_items_elem c k e Hwf Hk) as [Hin _].
  exists c', old. split_and!; try done.
  - unfold Len. rewrite Hlru. f_equal.
    by apply length_list_MoveToBack, Hwf.
  - rewrite Hlru. unfold list_MoveToBack. rewrite decide_True by done.
    apply last_snoc.
  - by rewrite Hu, wrap64_add_r.
Qed.

Lemma Set_present_key_in_place_witness :
  wf two_keys
  ∧ items two_keys !! "a" = Some 0%nat
  ∧ ∃ c' old,
      SetWithExpiration go_range 0 "a" (Some v20) 0 0 0 two_keys = Ok c'
      ∧ elements two_keys !! 0%nat = Some (mkEntry "a" old)
      ∧ elements c' = <[0%nat := mkEntry "a" v20]> (elements two_keys)
      ∧ items c' = items two_keys
      ∧ Len c' = Len two_keys
      ∧ last (lru c') = Some 0%nat
      ∧ evicted c' = evicted two_keys
      ∧ usedBytes c'
        = wrap64 (usedBytes two_keys + (Value_Len v20 - Value_Len old)).
Proof.
  split; [exact two_keys_wf|]. split; [reflexivity|].
  apply (Set_present_key_in_place go_range 0 "a" v20 0 0 0 two_keys 0%nat
           two_keys_wf).
  reflexivity.
Defined.

(** ** Delete *)

(** X9. Deleting a key that is in a well-formed cache returns true and
    removes exactly that key: it leaves the key index and the expiration
    index, [Len()] drops by one, [usedBytes] by the key length plus the
    value size, and the callback, if configured, is called once with the
    key and its value.  The other keys keep their elements.  Afterwards
    [Get] misses the key and a second [Delete] returns false. *)

Theorem Delete_present :
  ∀ (c : lruCache) (k : string) (e : nat) (now : Z),
    wf c → items c !! k = Some e →
    ∃ c' v,
      Delete k c = Ok (true, c')
      ∧ elements c !! e = Some (mkEntry k v)
      ∧ items c' = delete k (items c)
      ∧ expires c' = delete k (expires c)
      ∧ lru c' = list_Remove e (lru c)
      ∧ Len c' = Len c - 1
      ∧ usedBytes c'
        = wrap64 (usedBytes c - (Z.of_nat (String.length k) + Value_Len v))
      ∧ evicted c'
        = (if onEvicted c then evicted c ++ [(k, v)] else evicted c)
      ∧ Get k now c' = Ok (None, false, [], c')
      ∧ Delete k c' = Ok (false, c').
Proof.
  intros c k e now Hwf Hk.
  destruct (wf_items_elem c k e Hwf Hk) as [Hin [v Hv]].
  unfold Delete at 1. rewrite Hk, (removeElement_eq c e _ Hv). simpl.
  eexists _, v. split; [reflexivity|]. simpl.
  split_and!; try done.
  - unfold Len. simpl.
    pose proof (length_list_Remove e (lru c) (wf_nodup c Hwf) Hin). lia.
  - by rewrite wrap64_sub_r.
  - unfold Get. simpl. by rewrite lookup_delete_eq.
  - unfold Delete. simpl. by rewrite lookup_delete_eq.
Qed.

Lemma Delete_present_witness :
  wf two_keys
  ∧ items two_keys !! "x" = Some 1%nat
  ∧ ∃ c' v,
      Delete "x" two_keys = Ok (true, c')
      ∧ elements two_keys !! 1%nat = Some (mkEntry "x" v)
      ∧ items c' = delete "x" (items two_keys)
      ∧ expires c' = delete "x" (expires two_keys)
      ∧ lru c' = list_Remove 1%nat (lru two_keys)
      ∧ Len c' = Len two_keys - 1
      ∧ usedBytes c'
        = wrap64 (usedBytes two_keys
                  - (Z.of_nat (String.length "x") + Value_Len v))
      ∧ evicted c'
        = (if onEvicted two_keys then evicted two_keys ++ [("x", v)]
           else evicted two_keys)
      ∧ Get "x" 7 c' = Ok (None, false, [], c')
      ∧ Delete "x" c' = Ok (false, c').
Proof.
  split; [exact two_keys_wf|]. split; [reflexivity|].
  apply (Delete_present two_keys "x" 1%nat 7 two_keys_wf). reflexivity.
Defined.

(** ** Reads *)

(** X10. A [Get] that finds a key which is not expired returns the value
    stored under it and changes nothing but the order of the list: the
    element of the key is at [Front()] afterwards and the other elements
    keep their relative order; entries, key index, expirations,
    [usedBytes] and the callback log are as before. *)

Theorem Get_hit :
  ∀ (c : lruCache) (k : string) (e : nat) (now : Z),
    wf c → items c !! k = Some e →
    (∀ t, expires c !! k = Some t → now <= t) →
    ∃ v c',
      Get k now c = Ok (Some v, true, [], c')
      ∧ elements c !! e = Some (mkEntry k v)
      ∧ lru c' = e :: list_Remove e (lru c)
      ∧ elements c' = elements c
      ∧ items c' = items c
      ∧ expires c' = expires c
      ∧ usedBytes c' = usedBytes c
      ∧ evicted c' = evicted c.
Proof.
  intros c k e now Hwf Hk Hlive.
  destruct (wf_items_elem c k e Hwf Hk) as [Hin [v Hv]].
  unfold Get. rewrite Hk, Hv.
  assert (match expires c !! k with
          | Some expire => now >? expire | None => false end = false) as ->.
  { destruct (expires c !! k) as [t|] eqn:Ht; [|done].
    rewrite Z.gtb_ltb. apply Z.ltb_ge. by apply Hlive. }
  eexists v, _. split; [reflexivity|]. simpl.
  split_and!; try done.
  unfold list_MoveToFront. by rewrite decide_True.
Qed.

Lemma Get_hit_witness :
  wf two_keys
  ∧ items two_keys !! "x" = Some 1%nat
  ∧ (∀ t, expires two_keys !! "x" = Some t → 10 * Millisecond <= t)
  ∧ ∃ v c',
      Get "x" (10 * Millisecond) two_keys = Ok (Some v, true, [], c')
      ∧ elements two_keys !! 1%nat = Some (mkEntry "x" v)
      ∧ lru c' = 1%nat :: list_Remove 1%nat (lru two_keys)
      ∧ elements c' = elements two_keys
      ∧ items c' = items two_keys
      ∧ expires c' = expires two_keys
      ∧ usedBytes c' = usedBytes two_keys
      ∧ evicted c' = evicted two_keys.
Proof.
  assert (∀ t, expires two_keys !! "x" = Some t → 10 * Millisecond <= t)
    as Hlive.
  { intros t Ht. vm_compute in Ht. injection Ht as <-. vm_compute.
    discriminate. }
  split; [exact two_keys_wf|]. split; [reflexivity|]. split; [exact Hlive|].
  apply (Get_hit two_keys "x" 1%nat (10 * Millisecond) two_keys_wf).
  - reflexivity.
  - exact Hlive.
Defined.

(** X11. [GetWithExpiration] on a key that is not expired returns the
    stored value and the time left until its expiry (0 for a key without
    one), which is never negative, and moves the element of the key to
    the back of the list; it changes nothing else. *)

Theorem GetWithExpiration_hit :
  ∀ (c : lruCache) (k : string) (e : nat) (now : Z),
    wf c → items c !! k = Some e →
    (∀ t, expires c !! k = Some t → now <= t) →
    ∃ v c',
      GetWithExpiration k now c
        = Ok (Some v,
              match expires c !! k with Some t => t - now | None => 0 end,
              true, c')
      ∧ 0 <= match expires c !! k with Some t => t - now | None => 0 end
      ∧ elements c !! e = Some (mkEntry k v)
      ∧ c' = set_lru (list_MoveToBack e (lru c)) c
      ∧ last (lru c') = Some e.
Proof.
  intros c k e now Hwf Hk Hlive.
  destruct (wf_items_elem c k e Hwf Hk) as [Hin [v Hv]].
  assert (last (list_MoveToBack e (lru c)) = Some e) as Hlast.
  { unfold list_MoveToBack. rewrite decide_True by done. apply last_snoc. }
  unfold GetWithExpiration. rewrite Hk.
  destruct (expires c !! k) as [t|] eqn:Ht.
  - pose proof (Hlive t eq_refl) as Hle.
    assert ((now >? t) = false) as ->
      by (rewrite Z.gtb_ltb; apply Z.ltb_ge; lia).
    simpl. rewrite Hv. eexists v, _. split; [reflexivity|].
    split_and!; try done. lia.
  - simpl. rewrite Hv. eexists v, _. split; [reflexivity|].
    by split_and!.
Qed.

Lemma GetWithExpiration_hit_witness :
  wf two_keys
  ∧ items two_keys !! "x" = Some 1%nat
  ∧ (∀ t, expires two_keys !! "x" = Some t → 10 * Millisecond <= t)
  ∧ ∃ v c',
      GetWithExpiration "x" (10 * Millisecond) two_keys
        = Ok (Some v,
              match expires two_keys !! "x" with
              | Some t => t - 10 * Millisecond | None => 0 end,
              true, c')
      ∧ 0 <= match expires two_keys !! "x" with
             | Some t => t - 10 * Millisecond | None => 0 end
      ∧ elements two_keys !! 1%nat = Some (mkEntry "x" v)
      ∧ c' = set_lru (list_MoveToBack 1%nat (lru two_keys)) two_keys
      ∧ last (lru c') = Some 1%nat.
Proof.
  assert (∀ t, expires two_keys !! "x" = Some t → 10 * Millisecond <= t)
    as Hlive.
  { intros t Ht. vm_compute in Ht. injection Ht as <-. vm_compute.
    discriminate. }
  split; [exact two_keys_wf|]. split; [reflexivity|]. split; [exact Hlive|].
  apply (GetWithExpiration_hit two_keys "x" 1%nat (10 * Millisecond)
           two_keys_wf).
  - reflexivity.
  - exact Hlive.
Defined.

(** ** Expiry instants *)

(** X12. [UpdateExpiration] with a positive duration on a live key
    returns true and sets the expiry to the clock reading plus the
    duration, which [GetExpiration] then reports; list, entries and
    [usedBytes] are untouched.  From then on [Get] finds the key up to
    that instant and, later, reports a miss and starts its removal. *)

Theorem UpdateExpiration_positive :
  ∀ (c : lruCache) (k : string) (e : nat) (d now : Z),
    wf c → items c !! k = Some e → 0 < d →
    ∃ c',
      UpdateExpiration k d now c = (true, c')
      ∧ GetExpiration k c' = (Some (now + d), true)
      ∧ lru c' = lru c ∧ elements c' = elements c ∧ items c' = items c
      ∧ usedBytes c' = usedBytes c
      ∧ (∀ t, t <= now + d →
           ∃ v c'', Get k t c' = Ok (Some v, true, [], c''))
      ∧ (∀ t, now + d < t →
           Get k t c' = Ok (None, false, [GoDelete k], c')).
Proof.
  intros c k e d now Hwf Hk Hd.
  destruct (wf_items_elem c k e Hwf Hk) as [Hin [v Hv]].
  unfold UpdateExpiration. rewrite Hk.
  assert ((0 <? d) = true) as -> by (by apply Z.ltb_lt).
  eexists. split; [reflexivity|].
  unfold GetExpiration, Get. simpl. rewrite Hk, lookup_insert_eq, Hv.
  split_and!; try done.
  - intros t Ht.
    assert ((t >? now + d) = false) as ->
      by (rewrite Z.gtb_ltb; apply Z.ltb_ge; lia).
    by eexists _, _.
  - intros t Ht.
    assert ((t >? now + d) = true) as -> by (apply Z.gtb_lt; lia).
    done.
Qed.

Lemma UpdateExpiration_positive_witness :
  wf two_keys
  ∧ items two_keys !! "a" = Some 0%nat
  ∧ 0 < 5
  ∧ ∃ c',
      UpdateExpiration "a" 5 100 two_keys = (true, c')
      ∧ GetExpiration "a" c' = (Some (100 + 5), true)
      ∧ lru c' = lru two_keys ∧ elements c' = elements two_keys
      ∧ items c' = items two_keys
      ∧ usedBytes c' = usedBytes two_keys
      ∧ (∀ t, t <= 100 + 5 →
           ∃ v c'', Get "a" t c' = Ok (Some v, true, [], c''))
      ∧ (∀ t, 100 + 5 < t →
           Get "a" t c' = Ok (None, false, [GoDelete "a"], c')).
Proof.
  split; [exact two_keys_wf|]. split; [reflexivity|]. split; [lia|].
  apply (UpdateExpiration_positive two_keys "a" 0%nat 5 100 two_keys_wf).
  - reflexivity.
  - lia.
Defined.

(** ** The ceiling *)

(** X13. [SetMaxBytes] on a well-formed cache installs the new ceiling.
    A positive ceiling is enforced at once: the call returns with
    [usedBytes] at most the new ceiling, having only removed entries.  A
    ceiling that is not positive runs no eviction at all, so that
    nothing else changes, expired entries included. *)



(** ** Close *)

(** X14. [Close] is not idempotent.  On an engine whose ticker is set
    and whose channel is open, as [newLRUCache] leaves them, the first
    [Close] stops the ticker and closes the channel; every later [Close]
    panics, closing the closed channel again. *)

Theorem Close_twice_panics :
  ∀ (l : lifecycle),
    is_Some (cleanupTicker l) → closeCh_closed l = false →
    ∃ l',
      Close l = Ok l'
      ∧ cleanupTicker l' = Some false
      ∧ closeCh_closed l' = true
      ∧ Close l' = Panic.
Proof.
  intros [ticker closed] [running Hticker] Hopen. simpl in *. subst.
  eexists. split; [reflexivity|]. by split_and!.
Qed.

Lemma Close_twice_panics_witness :
  is_Some (cleanupTicker started) ∧ closeCh_closed started = false
  ∧ ∃ l',
      Close started = Ok l'
      ∧ cleanupTicker l' = Some false
      ∧ closeCh_closed l' = true
      ∧ Close l' = Panic.
Proof.
  assert (is_Some (cleanupTicker started)) as Hticker by (by eexists).
  split; [exact Hticker|]. split; [reflexivity|].
  apply (Close_twice_panics started Hticker). reflexivity.
Defined.

(** X16. A write replaces the expiry of its key wholesale.  If the key
    is in the cache when [SetWithExpiration(k, v, d)] has returned, its
    expiry is the clock reading plus [d] for a positive [d] and absent
    otherwise, whatever expiry the key had before: [GetExpiration]
    reports exactly that. *)

Theorem SetWithExpiration_replaces_expiry :
  ∀ (range_order : ∀ A : Type, gmap string A → list (string * A))
    (fuel : nat) (k : string) (v : Value)
    (d now_set now_evict : Z) (c c' : lruCache),
    wf c →
    SetWithExpiration range_order fuel k (Some v) d now_set now_evict c
      = Ok c' →
    is_Some (items c' !! k) →
    GetExpiration k c'
    = if 0 <? d then (Some (now_set + d), true) else (None, false).
Proof.
  intros range_order fuel k v d now_set now_evict c c' Hwf Hrun Hlive.
  assert (Hset : expires (expires_set k d now_set c) !! k
                 = if 0 <? d then Some (now_set + d) else None).
  { unfold expires_set. destruct (0 <? d); simpl.
    - apply lookup_insert_eq.
    - apply lookup_delete_eq. }
  assert (expires c' !! k = if 0 <? d then Some (now_set + d) else None)
    as Hexp.
  { destruct (items c !! k) as [e|] eqn:Hk.
    - destruct (wf_items_elem c k e Hwf Hk) as [_ [old Hold]].
      rewrite (SetWithExpiration_update_eq _ _ _ _ _ _ _ _ e _ Hk Hold)
        in Hrun.
      by simplify_eq.
    - rewrite (SetWithExpiration_insert_eq _ _ _ _ _ _ _ _ Hk) in Hrun.
      apply (evict_inv (λ c0, items c0 !! k = None
                              ∨ expires c0 !! k
                                = if 0 <? d then Some (now_set + d)
                                  else None)) in Hrun.
      + destruct Hrun as [Hnone|?]; [|done].
        rewrite Hnone in Hlive. by destruct Hlive.
      + intros c0 e0 c0' Hwf0 HP Hin0 Hrm.
        destruct (wf_elements c0 Hwf0 e0 Hin0) as [en0 Hen0].
        rewrite (removeElement_eq c0 e0 en0 Hen0) in Hrm.
        simplify_eq. simpl.
        destruct (decide (key en0 = k)) as [->|Hne].
        * left. apply lookup_delete_eq.
        * rewrite !lookup_delete_ne by done. done.
      + by apply wf_pushed.
      + right. simpl. done. }
  unfold GetExpiration. rewrite Hexp. by destruct (0 <? d).
Qed.

Lemma SetWithExpiration_replaces_expiry_witness :
  wf two_keys
  ∧ SetWithExpiration go_range 0 "x" (Some v4) 0 0 0 two_keys
    = Ok (mkCache [0%nat; 1%nat]
            (<[1%nat := mkEntry "x" v4]> (elements two_keys))
            (items two_keys) ∅ 0 10 true Minute 2%nat [])
  ∧ is_Some (items (mkCache [0%nat; 1%nat]
                      (<[1%nat := mkEntry "x" v4]> (elements two_keys))
                      (items two_keys) ∅ 0 10 true Minute 2%nat []) !! "x")
  ∧ GetExpiration "x"
      (mkCache [0%nat; 1%nat]
         (<[1%nat := mkEntry "x" v4]> (elements two_keys))
         (items two_keys) ∅ 0 10 true Minute 2%nat [])
    = if 0 <? 0 then (Some (0 + 0), true) else (None, false).
Proof.
  assert (SetWithExpiration go_range 0 "x" (Some v4) 0 0 0 two_keys
          = Ok (mkCache [0%nat; 1%nat]
                  (<[1%nat := mkEntry "x" v4]> (elements two_keys))
                  (items two_keys) ∅ 0 10 true Minute 2%nat [])) as Hrun
    by (vm_compute; reflexivity).
  assert (is_Some (items (mkCache [0%nat; 1%nat]
                      (<[1%nat := mkEntry "x" v4]> (elements two_keys))
                      (items two_keys) ∅ 0 10 true Minute 2%nat []) !! "x"))
    as Hlive by (by eexists).
  split; [exact two_keys_wf|]. split; [exact Hrun|]. split; [exact Hlive|].
  apply (SetWithExpiration_replaces_expiry go_range 0 "x" v4 0 0 0 two_keys
           _ two_keys_wf Hrun Hlive).
Defined.

(** ** Byte accounting *)


(** A change that keeps every reported size keeps the cache well
    formed. *)




(** What [evict] removes and what that does to [usedBytes]. *)



(** C4, as the code has it.  Take any sequence of calls on a fresh
    engine (Set, SetWithExpiration and Delete among them) and of changes
    callers make to stored objects, none of which changes the size an
    object reports.  Every call returns, and afterwards [usedBytes] is
    the sum over the live entries of key length plus value size, taken
    in [int64]; the two are equal as integers whenever that sum is an
    [int64].  From the cache reached, an insert adds
    [len(key) + value.Len()] and the eviction that follows subtracts the
    accounted size of each entry it removes, an update in place adds the
    difference of the value sizes, and a delete of a live key subtracts
    the whole accounted size of its entry. *)



(** C4 as the specification states it fails on the code in two ways.
    A 10-byte buffer is stored under k, emptied by its owner and then
    deleted: the removal subtracts the size the buffer reports now, and
    the empty cache is left with [usedBytes = 10].  And one entry whose
    value reports the largest [int] makes the addition wrap:
    [usedBytes] is [- 2 ^ 63] where the sum is [2 ^ 63]. *)


(** The cache of that scenario is one on which lowering the ceiling
    never returns. *)

Lemma drift_scenario_spins :
  ∃ c, run_events go_range 3 drift_events (newLRUCache unlimited) = Ok c
    ∧ ∀ fuel, SetMaxBytes go_range fuel 5 0 c = OutOfFuel.
Proof.
  eexists. split; [vm_compute; reflexivity|]. intros fuel.
  unfold SetMaxBytes, evict. cbv zeta.
  change (0 <? 5) with true. cbv iota.
  match goal with
  | |- expire_loop ?ks 0 ?c ≫= _ = _ =>
      change (expire_loop ks 0 c) with (Ok c)
  end.
  simpl. apply capacity_loop_spins; simpl; (done || lia).
Qed.

(** ** Time to live, with the ticker and the started goroutine *)

Lemma tick_emptied range_order fuel t c :
  range_ok range_order → emptied c →
  cleanupTick range_order fuel t c = Ok c.
Proof.
  intros Hrange (Hl & Hi & He & Hu). unfold cleanupTick, evict.
  rewrite expire_loop_none_expired.
  - simpl. apply capacity_loop_within. rewrite Hu. lia.
  - intros k t0. by rewrite He, lookup_empty.
Qed.

Lemma run_ticks_emptied range_order fuel ts c :
  range_ok range_order → emptied c →
  run_calls range_order fuel (CallTick <$> ts) c = Ok c.
Proof.
  intros Hrange Hc. induction ts as [|t ts IH]; simpl; [done|].
  by rewrite tick_emptied.
Qed.

Lemma tick_one_entry_live range_order fuel opts k v T t :
  t <= T →
  (MaxBytes opts <= 0
   ∨ wrap64 (Z.of_nat (String.length k) + Value_Len v) <= MaxBytes opts) →
  cleanupTick range_order fuel t (one_entry opts k v T)
  = Ok (one_entry opts k v T).
Proof.
  intros Ht Hroom. unfold cleanupTick, evict.
  rewrite expire_loop_none_expired.
  - simpl. by apply capacity_loop_within.
  - simpl. intros k' t0 [_ <-]%lookup_singleton_Some. done.
Qed.

Lemma tick_one_entry_expired range_order fuel opts k v T t :
  range_ok range_order → T < t →
  ∃ c, cleanupTick range_order fuel t (one_entry opts k v T) = Ok c
    ∧ emptied c.
Proof.
  intros Hrange Ht. unfold cleanupTick, evict.
  assert ((range_order Z (expires (one_entry opts k v T))).*1 = [k]) as ->.
  { pose proof (Hrange Z (expires (one_entry opts k v T))) as Hperm.
    simpl in Hperm |- *. rewrite map_to_list_singleton in Hperm.
    apply Permutation_singleton_r in Hperm. by rewrite Hperm. }
  assert ((t >? T) = true) as Hgt by (apply Z.gtb_lt; lia).
  simpl. rewrite !lookup_singleton_eq, Hgt. simpl.
  rewrite lookup_singleton_eq. simpl.
  assert (wrap64 (wrap64 (Z.of_nat (String.length k) + Value_Len v)
                  - wrap64 (entry_size (mkEntry k v))) = 0) as Hzero.
  { rewrite wrap64_sub_r, wrap64_sub_l. unfold entry_size. simpl.
    by rewrite Z.sub_diag. }
  rewrite capacity_loop_within; [|simpl; rewrite Hzero; lia].
  eexists. split; [reflexivity|].
  split_and!; simpl; [done|apply delete_singleton_eq..|done].
Qed.

Lemma run_ticks_one_entry range_order fuel opts k v T ts :
  range_ok range_order →
  (MaxBytes opts <= 0
   ∨ wrap64 (Z.of_nat (String.length k) + Value_Len v) <= MaxBytes opts) →
  ∃ c2, run_calls range_order fuel (CallTick <$> ts) (one_entry opts k v T)
          = Ok c2
    ∧ (Forall (λ t, t <= T) ts → c2 = one_entry opts k v T)
    ∧ (Exists (λ t, T < t) ts → emptied c2).
Proof.
  intros Hrange Hroom. induction ts as [|t ts IH]; simpl.
  { eexists. split; [reflexivity|]. split; [done|].
    by intros H%Exists_nil. }
  destruct (decide (t <= T)) as [Hle|Hgt].
  - rewrite tick_one_entry_live by done. simpl.
    destruct IH as (c2 & Hrun & Hall & Hsome). exists c2.
    split; [done|]. split.
    + intros [_ ?]%Forall_cons. by apply Hall.
    + intros [?|?]%Exists_cons; [lia|by apply Hsome].
  - destruct (tick_one_entry_expired range_order fuel opts k v T t Hrange)
      as (c & Hrun & Hc); [lia|].
    rewrite Hrun. simpl. rewrite run_ticks_emptied by done.
    exists c. split; [done|]. split; [|done].
    intros [? _]%Forall_cons. lia.
Qed.

Lemma Delete_one_entry opts k v T :
  ∃ c, run_goroutines [GoDelete k] (one_entry opts k v T) = Ok c
    ∧ emptied c.
Proof.
  unfold run_goroutines, run_goroutine, Delete, removeElement. simpl.
  rewrite !lookup_singleton_eq. simpl.
  eexists. split; [reflexivity|].
  split_and!; simpl; [done|apply delete_singleton_eq..|].
  rewrite wrap64_sub_r, wrap64_sub_l. unfold entry_size. simpl.
  by rewrite Z.sub_diag.
Qed.

Lemma run_later_emptied range_order fuel ls gs k c :
  range_ok range_order → emptied c → gs = [] ∨ gs = [GoDelete k] →
  run_later range_order fuel ls gs c = Ok c.
Proof.
  intros Hrange Hc. revert gs.
  induction ls as [|[t|] ls IH]; intros gs Hgs; simpl; [done| |].
  - rewrite tick_emptied by done. simpl. by apply IH.
  - assert (run_goroutines gs c = Ok c) as ->.
    { destruct Hgs as [->| ->]; [done|].
      destruct Hc as (_ & Hi & _). simpl. unfold Delete.
      by rewrite Hi, lookup_empty. }
    simpl. apply IH. by left.
Qed.

Lemma run_later_one_entry range_order fuel opts k v T ls :
  range_ok range_order →
  (MaxBytes opts <= 0
   ∨ wrap64 (Z.of_nat (String.length k) + Value_Len v) <= MaxBytes opts) →
  ∃ c3, run_later range_order fuel ls [GoDelete k] (one_entry opts k v T)
          = Ok c3
    ∧ (Exists (removes T) ls → emptied c3)
    ∧ (¬ Exists (removes T) ls → c3 = one_entry opts k v T).
Proof.
  intros Hrange Hroom. induction ls as [|[t|] ls IH].
  - eexists. split; [reflexivity|]. split; [by intros H%Exists_nil|done].
  - simpl. destruct (decide (t <= T)) as [Hle|Hgt].
    + rewrite tick_one_entry_live by done. simpl.
      destruct IH as (c3 & Hrun & Hsome & Hnone). exists c3.
      split; [done|]. split.
      * intros [?|?]%Exists_cons; [simpl in *; lia|by apply Hsome].
      * intros Hn. apply Hnone. intros ?. apply Hn. by apply Exists_cons_tl.
    + destruct (tick_one_entry_expired range_order fuel opts k v T t Hrange)
        as (c & Hrun & Hc); [lia|].
      rewrite Hrun. simpl.
      rewrite (run_later_emptied range_order fuel ls _ k c) by auto.
      exists c. split; [done|]. split; [done|].
      intros Hn. exfalso. apply Hn. apply Exists_cons_hd. simpl. lia.
  - destruct (Delete_one_entry opts k v T) as (c & Hrun & Hc).
    cbn [run_later]. rewrite Hrun. simpl.
    rewrite (run_later_emptied range_order fuel ls _ k c) by auto.
    exists c. split; [done|]. split; [done|].
    intros Hn. exfalso. apply Hn. by apply Exists_cons_hd.
Qed.

(** C5, as the code has it.  After [SetWithExpiration(k, v, d)] with
    [d > 0] on a fresh engine whose budget admits the entry, [Get(k)] up
    to the expiry instant returns [(v, true)].  Let the cleanup ticker
    then fire at the instants [ts], in any number and at any time, and
    let [Get(k)] be called past the expiry instant: it returns
    [(nil, false)].  If a firing was past the expiry, the sweep has
    removed the entry, the call is a plain miss and starts nothing.
    Otherwise the call finds the entry, starts [go c.Delete(k)] and
    removes nothing itself.  Whatever happens next, in any order (the
    ticker firing, the started goroutine running), [Len()] is 0 exactly
    when the entry has been removed, by a firing past the expiry before
    or after the call or by the goroutine, and 1 until then: with no
    such step yet, [Len()] is still 1 when the call has returned. *)

Theorem ttl_get_after_expiry :
  ∀ (range_order : ∀ A : Type, gmap string A → list (string * A)),
    range_ok range_order →
    ∀ (fuel : nat) (opts : Options) (k : string) (v : Value)
      (d now_set now_evict t1 t2 : Z) (ts : list Z),
      0 < d →
      now_evict <= now_set + d →
      (MaxBytes opts <= 0
       ∨ wrap64 (Z.of_nat (String.length k) + Value_Len v)
         <= MaxBytes opts) →
      t1 <= now_set + d →
      now_set + d < t2 →
      ∃ c1,
        SetWithExpiration range_order fuel k (Some v) d now_set now_evict
          (newLRUCache opts) = Ok c1
        ∧ Get k t1 c1 = Ok (Some v, true, [], c1)
        ∧ ∃ c2 gs,
            run_calls range_order fuel (CallTick <$> ts) c1 = Ok c2
            ∧ Get k t2 c2 = Ok (None, false, gs, c2)
            ∧ (Exists (λ t, now_set + d < t) ts → gs = [])
            ∧ (¬ Exists (λ t, now_set + d < t) ts → gs = [GoDelete k])
            ∧ ∀ ls : list later,
                ∃ c3, run_later range_order fuel ls gs c2 = Ok c3
                  ∧ (Exists (λ t, now_set + d < t) ts
                     ∨ Exists (removes (now_set + d)) ls →
                     Len c3 = 0)
                  ∧ (¬ (Exists (λ t, now_set + d < t) ts
                        ∨ Exists (removes (now_set + d)) ls) →
                     Len c3 = 1).
Proof.
  intros range_order Hrange fuel opts k v d now_set now_evict t1 t2 ts
    Hd Hclock Hroom Ht1 Ht2.
  exists (one_entry opts k v (now_set + d)).
  split; [by apply SetWithExpiration_first|].
  assert ((t1 >? now_set + d) = false) as Hlive
    by (rewrite Z.gtb_ltb; apply Z.ltb_ge; lia).
  assert ((t2 >? now_set + d) = true) as Hpast by (apply Z.gtb_lt; lia).
  split.
  { unfold Get. simpl. rewrite !lookup_singleton_eq, Hlive. reflexivity. }
  destruct (run_ticks_one_entry range_order fuel opts k v (now_set + d) ts
              Hrange Hroom) as (c2 & Hrun & Hall & Hsome).
  destruct (decide (Exists (λ t, now_set + d < t) ts)) as [Hswept|Hquiet].
  - destruct (Hsome Hswept) as (Hl & Hi & He & Hu).
    exists c2, []. split; [done|]. split_and!; try done.
    + unfold Get. by rewrite Hi, lookup_empty.
    + intros ls. exists c2.
      split; [apply (run_later_emptied _ _ _ _ k); auto; by split_and!|].
      split; [intros _; unfold Len; by rewrite Hl|].
      intros Hn. exfalso. apply Hn. by left.
  - assert (c2 = one_entry opts k v (now_set + d)) as ->.
    { apply Hall. apply Forall_forall. intros t Hin.
      destruct (decide (t <= now_set + d)) as [|Hgt]; [done|].
      exfalso. apply Hquiet. apply Exists_exists. exists t.
      split; [done|lia]. }
    eexists _, [GoDelete k]. split; [exact Hrun|]. split_and!; try done.
    + unfold Get. simpl. rewrite !lookup_singleton_eq, Hpast. reflexivity.
    + intros ls.
      destruct (run_later_one_entry range_order fuel opts k v
                  (now_set + d) ls Hrange Hroom)
        as (c3 & Hrun3 & Hgone & Hstill).
      exists c3. split; [done|]. split.
      * intros [?|Hex]; [done|]. destruct (Hgone Hex) as (Hl & _).
        unfold Len. by rewrite Hl.
      * intros Hn. rewrite Hstill; [done|]. intros ?. apply Hn. by right.
Qed.

Lemma ttl_get_after_expiry_witness :
  range_ok go_range
  ∧ 0 < 50 * Millisecond
  ∧ 0 <= 0 + 50 * Millisecond
  ∧ (MaxBytes NewOptions <= 0
     ∨ wrap64 (Z.of_nat (String.length "x") + Value_Len v4)
       <= MaxBytes NewOptions)
  ∧ 0 <= 0 + 50 * Millisecond
  ∧ 0 + 50 * Millisecond < 60 * Millisecond
  ∧ ∃ c1,
      SetWithExpiration go_range 1 "x" (Some v4) (50 * Millisecond) 0 0
        (newLRUCache NewOptions) = Ok c1
      ∧ Get "x" 0 c1 = Ok (Some v4, true, [], c1)
      ∧ ∃ c2 gs,
          run_calls go_range 1 (CallTick <$> [55 * Millisecond]) c1 = Ok c2
          ∧ Get "x" (60 * Millisecond) c2 = Ok (None, false, gs, c2)
          ∧ (Exists (λ t, 0 + 50 * Millisecond < t) [55 * Millisecond] →
               gs = [])
          ∧ (¬ Exists (λ t, 0 + 50 * Millisecond < t) [55 * Millisecond] →
               gs = [GoDelete "x"])
          ∧ ∀ ls : list later,
              ∃ c3, run_later go_range 1 ls gs c2 = Ok c3
                ∧ (Exists (λ t, 0 + 50 * Millisecond < t)
                     [55 * Millisecond]
                   ∨ Exists (removes (0 + 50 * Millisecond)) ls →
                   Len c3 = 0)
                ∧ (¬ (Exists (λ t, 0 + 50 * Millisecond < t)
                        [55 * Millisecond]
                      ∨ Exists (removes (0 + 50 * Millisecond)) ls) →
                   Len c3 = 1).
Proof.
  assert (MaxBytes NewOptions <= 0
          ∨ wrap64 (Z.of_nat (String.length "x") + Value_Len v4)
            <= MaxBytes NewOptions) as Hroom
    by (right; vm_compute; discriminate).
  split; [exact go_range_ok|]. split; [reflexivity|].
  split; [unfold Millisecond; lia|]. split; [exact Hroom|].
  split; [unfold Millisecond; lia|]. split; [reflexivity|].
  apply (ttl_get_after_expiry go_range go_range_ok 1 NewOptions "x" v4
           (50 * Millisecond) 0 0 0 (60 * Millisecond)
           [55 * Millisecond]).
  - reflexivity.
  - unfold Millisecond; lia.
  - exact Hroom.
  - unfold Millisecond; lia.
  - reflexivity.
Defined.

(** ** Every entry that leaves is reported, once and as it was *)







(** The values of the key index are the elements of the list. *)










(** X1. Starting from a fresh engine with an eviction callback, after
    any sequence of calls every entry ever inserted (the addresses below
    [next_elem]) is either live, in the list, or gone, and never both or
    twice; the callback log lists exactly the gone entries, each once,
    in the order they left and with the key and the value they had when
    they left, whatever the cause: [Delete], expiry, capacity eviction
    or [Clear].  So the number of entries inserted is the number live
    plus the number of callback invocations.  Without a callback
    nothing is ever logged. *)



(** ** The ticker *)

Lemma evict_keeps_expiry range_order fuel now c c' :
  wf c → evict range_order fuel now c = Ok c' →
  ∀ k, is_Some (items c' !! k) → expires c' !! k = expires c !! k.
Proof.
  intros Hwf.
  apply (evict_inv (λ c0, ∀ k, is_Some (items c0 !! k) →
                               expires c0 !! k = expires c !! k));
    [|done..].
  intros c0 e c0' Hwf0 HP Hin Hrm k.
  destruct (wf_elements c0 Hwf0 e Hin) as [en Hen].
  rewrite (removeElement_eq c0 e en Hen) in Hrm. simplify_eq. simpl.
  destruct (decide (key en = k)) as [->|Hne].
  - rewrite lookup_delete_eq. by intros [? ?].
  - rewrite !lookup_delete_ne by done. apply HP.
Qed.

(** X3. One firing of the cleanup ticker on a well-formed cache returns
    a cache in which no expiry instant lies before the firing time and,
    when [maxBytes > 0], [usedBytes <= maxBytes].  It only removes: a
    key that survives points to the element it pointed to, with the same
    entry, and has the expiry instant it had, or none if it had none. *)

Theorem cleanupTick_postcondition :
  ∀ (range_order : ∀ A : Type, gmap string A → list (string * A)),
    range_ok range_order →
    ∀ (fuel : nat) (now : Z) (c : lruCache),
      wf c → (length (lru c) ≤ fuel)%nat →
      ∃ c', cleanupTick range_order fuel now c = Ok c'
        ∧ (∀ k t, expires c' !! k = Some t → now <= t)
        ∧ (0 < maxBytes c' → usedBytes c' <= maxBytes c')
        ∧ items c' ⊆ items c
        ∧ expires c' ⊆ expires c
        ∧ elements c' = elements c
        ∧ (∀ k, is_Some (items c' !! k) →
             items c' !! k = items c !! k
             ∧ expires c' !! k = expires c !! k).
Proof.
  intros range_order Hrange fuel now c Hwf Hfuel. unfold cleanupTick.
  destruct (evict_post range_order fuel now c Hrange Hwf Hfuel)
    as (c' & Hrun & _ & Hb & Hexp & Hi & He & Hel).
  exists c'. split_and!; try done.
  intros k Hk. split.
  - destruct Hk as [e Hk]. rewrite Hk. symmetry.
    by eapply lookup_weaken.
  - by apply (evict_keeps_expiry range_order fuel now c c').
Qed.

Lemma cleanupTick_postcondition_witness :
  range_ok go_range
  ∧ wf two_keys
  ∧ (length (lru two_keys) ≤ 2)%nat
  ∧ ∃ c', cleanupTick go_range 2 (60 * Millisecond) two_keys = Ok c'
      ∧ (∀ k t, expires c' !! k = Some t → 60 * Millisecond <= t)
      ∧ (0 < maxBytes c' → usedBytes c' <= maxBytes c')
      ∧ items c' ⊆ items two_keys
      ∧ expires c' ⊆ expires two_keys
      ∧ elements c' = elements two_keys
      ∧ (∀ k, is_Some (items c' !! k) →
           items c' !! k = items two_keys !! k
           ∧ expires c' !! k = expires two_keys !! k).
Proof.
  split; [exact go_range_ok|]. split; [exact two_keys_wf|].
  split; [simpl; lia|].
  apply (cleanupTick_postcondition go_range go_range_ok 2
           (60 * Millisecond) two_keys two_keys_wf).
  simpl; lia.
Defined.
